(** * Mortgage explorer: the amortization engine

    A shallow embedding of the mortgage calculation utilities
    ([calculateMonthlyPayment], [generateAmortizationSchedule],
    [calculateSummary], [formatDuration]) and of the part of the page that
    feeds them (module [App]: the scenarios, their lump sums and the
    summary card), with the properties their specification states and
    further properties of the code.

    The TypeScript code computes on [number], that is on IEEE 754 binary64
    values, with [Math.pow], [Math.min] and [Math.max].  The engine below is
    written once, over an interface [Number] of the arithmetic the code uses,
    and read under two interpretations:

    - [Q_number]: exact rational arithmetic.  The general theorems are proved
      here; an equation "within floating tolerance" is proved as an exact
      equation.
    - [F64_number]: the kernel's binary64 floats, whose [+ - * /] and
      comparisons are those of JavaScript.  [Math.pow] is left to the
      implementation by ECMAScript, so it is a parameter of this instance;
      the zero-rate path of the code never calls it.  This instance is used
      to run the code on concrete inputs.

    In the rational reading a division by zero yields 0, where JavaScript
    yields an infinity or NaN; for a non-negative rate and a term of at least
    one month the code divides by no zero ([payment_divisors_nonzero]).

    [termMonths], the period index [month] and the keys of the lump-sum
    [Map] are integers ([Z]).  A calendar date is abstracted to the ordinal
    of its month (twelve times the year plus the month); the day of the month
    is not represented. *)

From stdpp Require Import gmap pretty.
From Stdlib Require Import ZArith QArith Qminmax Qpower Qabs Qround Lqa Lia.
From Stdlib Require Import List Sorted Floats Ascii.
From Equations Require Import Equations.
Import ListNotations.

Unset Default Proof Using.

(** ** The arithmetic of [number] *)

Class Number (num : Type) : Type := {
  ofZ : Z -> num;                 (* an integer literal or integer value *)
  cent : num;                     (* the literal 0.01 *)
  add : num -> num -> num;
  sub : num -> num -> num;
  mul : num -> num -> num;
  div : num -> num -> num;
  pow : num -> Z -> num;          (* Math.pow, at an integer exponent *)
  eqb : num -> num -> bool;       (* === *)
  gtb : num -> num -> bool;       (* > *)
  leb : num -> num -> bool;       (* <= *)
  min : num -> num -> num;        (* Math.min *)
  max : num -> num -> num         (* Math.max *)
}.

Declare Scope num_scope.
Delimit Scope num_scope with num.
Infix "+" := add : num_scope.
Infix "-" := sub : num_scope.
Infix "*" := mul : num_scope.
Infix "/" := div : num_scope.
Infix "===" := eqb (at level 70, no associativity) : num_scope.
Infix ">?" := gtb (at level 70, no associativity) : num_scope.
Infix "<=?" := leb (at level 70, no associativity) : num_scope.

(** ** Data model *)

Record MortgageInputs (num : Type) : Type := {
  principal : num;
  annualRate : num;
  termMonths : Z;
  startDate : Z;
  extraMonthlyPayment : num
}.

Record PaymentRow (num : Type) : Type := {
  month : Z;
  date : Z;
  basePayment : num;
  extraPayment : num;
  totalPayment : num;
  principalPaid : num;
  interestPaid : num;
  remainingBalance : num
}.

Record ScenarioOverride (num : Type) : Type := {
  extraMonthlyPrincipal : num;
  lumpSumPayments : gmap Z num
}.

Record ScenarioSummary (num : Type) : Type := {
  totalInterestPaid : num;
  totalPaid : num;
  monthsToPayoff : Z;
  interestSaved : num;
  monthsSaved : Z
}.

Arguments principal {num} _.
Arguments annualRate {num} _.
Arguments termMonths {num} _.
Arguments startDate {num} _.
Arguments extraMonthlyPayment {num} _.
Arguments month {num} _.
Arguments date {num} _.
Arguments basePayment {num} _.
Arguments extraPayment {num} _.
Arguments totalPayment {num} _.
Arguments principalPaid {num} _.
Arguments interestPaid {num} _.
Arguments remainingBalance {num} _.
Arguments extraMonthlyPrincipal {num} _.
Arguments lumpSumPayments {num} _.
Arguments totalInterestPaid {num} _.
Arguments totalPaid {num} _.
Arguments monthsToPayoff {num} _.
Arguments interestSaved {num} _.
Arguments monthsSaved {num} _.

Definition inspect {A : Type} (a : A) : {b : A | a = b} := exist _ a eq_refl.

(** ** The engine *)

Section Engine.
Context {num : Type} {arith : Number num}.
Local Open Scope num_scope.

Definition calculateMonthlyPayment (principal annualRate : num) (termMonths : Z) : num :=
  let monthlyRate := annualRate / ofZ 100 / ofZ 12 in
  if monthlyRate === ofZ 0 then principal / ofZ termMonths
  else
    let numerator := monthlyRate * pow (ofZ 1 + monthlyRate) termMonths in
    let denominator := pow (ofZ 1 + monthlyRate) termMonths - ofZ 1 in
    principal * (numerator / denominator).

(** [overrides?.extraMonthlyPrincipal ?? 0] *)
Definition requestedMonthly (overrides : option (ScenarioOverride num)) : num :=
  match overrides with
  | Some o => extraMonthlyPrincipal o
  | None => ofZ 0
  end.

(** [overrides?.lumpSumPayments?.get(month) ?? 0] *)
Definition requestedLumpSum (overrides : option (ScenarioOverride num)) (month : Z) : num :=
  match overrides with
  | Some o => default (ofZ 0) (lumpSumPayments o !! month)
  | None => ofZ 0
  end.

Section Schedule.
Variable inputs : MortgageInputs num.
Variable overrides : option (ScenarioOverride num).

Let monthlyRate : num := annualRate inputs / ofZ 100 / ofZ 12.
Let basePayment_ : num :=
  calculateMonthlyPayment (principal inputs) (annualRate inputs) (termMonths inputs).

(** The body of the loop for one [month], entered with balance
    [remainingBalance]: the row it pushes, and the balance it leaves
    (unclamped, as the loop variable holds it). *)
Definition period (month : Z) (remainingBalance : num) : PaymentRow num * num :=
  let date := (startDate inputs + (month - 1))%Z in
  let interestPaid := remainingBalance * monthlyRate in
  let principalPaid := basePayment_ - interestPaid in
  let extraMonthlyPrincipal := requestedMonthly overrides in
  let lumpSum := requestedLumpSum overrides month in
  let extraPayment := extraMonthlyPrincipal + lumpSum in
  let maxPrincipal := remainingBalance in
  let principalPaid := min (principalPaid + extraPayment) maxPrincipal in
  let actualExtra := principalPaid - (basePayment_ - interestPaid) in
  let remainingBalance := remainingBalance - principalPaid in
  let totalPayment := basePayment_ + actualExtra + extraMonthlyPayment inputs in
  ({| month := month;
      date := date;
      basePayment := basePayment_;
      extraPayment := actualExtra;
      totalPayment := totalPayment;
      principalPaid := principalPaid;
      interestPaid := interestPaid;
      remainingBalance := max (ofZ 0) remainingBalance |},
   remainingBalance).

(** The loop test, [month <= termMonths && remainingBalance > 0.01]. *)
Definition continues (month : Z) (remainingBalance : num) : bool :=
  (month <=? termMonths inputs)%Z && (remainingBalance >? cent).

(** [for (let month = 1; month <= termMonths && remainingBalance > 0.01; month++)]
    with its [break]: the loop started at [month] with balance
    [remainingBalance] and the rows in [schedule] already pushed.  It ends
    because [termMonths + 1 - month] decreases. *)
Equations? loop (month : Z) (remainingBalance : num) (schedule : list (PaymentRow num))
  : list (PaymentRow num) by wf (Z.to_nat (termMonths inputs + 1 - month)) lt :=
  loop month remainingBalance schedule with inspect (continues month remainingBalance) := {
    | exist _ false _ := schedule;
    | exist _ true Hc :=
        let row := fst (period month remainingBalance) in
        let remainingBalance := snd (period month remainingBalance) in
        let schedule := schedule ++ [row] in
        if remainingBalance <=? cent then schedule
        else loop (month + 1)%Z remainingBalance schedule }.
Proof.
  apply andb_true_iff in Hc as [Hc _]. apply Z.leb_le in Hc. lia.
Qed.

Definition generateAmortizationSchedule : list (PaymentRow num) :=
  loop 1%Z (principal inputs) [].

(** The rows pushed from [month] on, when the loop is entered with balance
    [remainingBalance] (the loop started on an empty array). *)
Definition rows (month : Z) (remainingBalance : num) : list (PaymentRow num) :=
  loop month remainingBalance [].

(** A run of the loop, as a relation: [run month balance s] when the loop
    entered at [month] with [balance] pushes exactly the rows [s]. *)
Inductive run : Z -> num -> list (PaymentRow num) -> Prop :=
| run_stop month rb :
    continues month rb = false ->
    run month rb []
| run_break month rb :
    continues month rb = true ->
    (snd (period month rb) <=? cent) = true ->
    run month rb [fst (period month rb)]
| run_next month rb s :
    continues month rb = true ->
    (snd (period month rb) <=? cent) = false ->
    run (month + 1)%Z (snd (period month rb)) s ->
    run month rb (fst (period month rb) :: s).
End Schedule.

(** The balance once [k] periods have been paid, read off a schedule: the
    principal for [k = 0], else the [remainingBalance] of row [k]. *)
Definition balanceAfter (principal : num) (schedule : list (PaymentRow num)) (k : nat)
    : option num :=
  match k with
  | O => Some principal
  | S j => remainingBalance <$> schedule !! j
  end.

(** The extra principal requested for [month]. *)
Definition requestedExtra (overrides : option (ScenarioOverride num)) (month : Z) : num :=
  requestedMonthly overrides + requestedLumpSum overrides month.

(** [schedule.reduce((sum, row) => sum + f(row), 0)] *)
Definition reduce_sum (f : PaymentRow num -> num) (schedule : list (PaymentRow num)) : num :=
  fold_left (fun sum row => sum + f row) schedule (ofZ 0).

Definition calculateSummary (schedule : list (PaymentRow num))
    (baseSchedule : option (list (PaymentRow num))) : ScenarioSummary num :=
  let totalInterestPaid := reduce_sum interestPaid schedule in
  let totalPaid := reduce_sum totalPayment schedule in
  let monthsToPayoff := Z.of_nat (length schedule) in
  match baseSchedule with
  | Some baseSchedule =>
      let baseInterest := reduce_sum interestPaid baseSchedule in
      {| totalInterestPaid := totalInterestPaid;
         totalPaid := totalPaid;
         monthsToPayoff := monthsToPayoff;
         interestSaved := baseInterest - totalInterestPaid;
         monthsSaved := (Z.of_nat (length baseSchedule) - monthsToPayoff)%Z |}
  | None =>
      {| totalInterestPaid := totalInterestPaid;
         totalPaid := totalPaid;
         monthsToPayoff := monthsToPayoff;
         interestSaved := ofZ 0;
         monthsSaved := 0%Z |}
  end.
End Engine.

(** ** Formatting a duration *)

(** [formatDuration(months)], for an integer [months] (a row count or a
    difference of row counts): [Math.floor(months / 12)] is the quotient
    rounded down, [%] the remainder that takes the sign of [months], and a
    template literal prints an integer in decimal, with a minus sign when it
    is negative. *)
Definition formatDuration (months : Z) : string :=
  let years := (months / 12)%Z in
  let remainingMonths := Z.rem months 12 in
  if (years =? 0)%Z then
    pretty remainingMonths +:+ " month" +:+ (if negb (remainingMonths =? 1)%Z then "s" else "")
  else if (remainingMonths =? 0)%Z then
    pretty years +:+ " year" +:+ (if negb (years =? 1)%Z then "s" else "")
  else pretty years +:+ "y " +:+ pretty remainingMonths +:+ "m".

(** ** The page: scenarios and their lump sums *)

(** The part of [App.tsx] that feeds the engine: a scenario as the page
    stores it, the override and the schedules built from it, the summary
    card, and the handlers that edit a scenario's lump sums and the list of
    scenarios.  The text of an input field enters through the result of
    [parseInt] or [parseFloat]; as in the engine, a month is an integer. *)
Module App.

Record Scenario (num : Type) : Type := {
  id : string;
  name : string;
  extraMonthlyPrincipal : num;
  lumpSumPayments : list (Z * num)
}.

Arguments id {num} _.
Arguments name {num} _.
Arguments extraMonthlyPrincipal {num} _.
Arguments lumpSumPayments {num} _.

Section Page.
Context {num : Type} {arith : Number num}.
Local Open Scope num_scope.

(** [new Map(entries)]: the entries are set in order, so that of two entries
    with the same key the later one stays. *)
Definition newMap (entries : list (Z * num)) : gmap Z num :=
  foldl (fun map entry => <[entry.1 := entry.2]> map) ∅ entries.

(** The override built for a scenario:
    [{ extraMonthlyPrincipal, lumpSumPayments: new Map(...) }]. *)
Definition override (scenario : Scenario num) : ScenarioOverride num :=
  Build_ScenarioOverride num (extraMonthlyPrincipal scenario)
    (newMap (lumpSumPayments scenario)).

(** [state.scenarios.map((scenario) => generateAmortizationSchedule(...))];
    [baseSchedule] is its first element. *)
Definition schedules (mortgageInputs : MortgageInputs num) (scenarios : list (Scenario num))
    : list (list (PaymentRow num)) :=
  map (fun scenario => generateAmortizationSchedule mortgageInputs (Some (override scenario)))
    scenarios.

(** [SummaryCard]: the summary, computed against the base schedule unless the
    scenario is the base one, and the total monthly amount. *)
Definition summary (scenario : Scenario num) (schedule baseSchedule : list (PaymentRow num))
    : ScenarioSummary num :=
  calculateSummary schedule
    (if negb (String.eqb (id scenario) "base") then Some baseSchedule else None).

Definition totalMonthly (scenario : Scenario num) (monthlyPayment extraMonthlyPayment : num)
    : num :=
  monthlyPayment + extraMonthlyPrincipal scenario + extraMonthlyPayment.

(** [entries.sort((a, b) => a[0] - b[0])]: [Array.prototype.sort] is a
    stable sort, and the comparator orders the entries by their integer
    month, so the result is the one stable ascending arrangement of the
    entries; it is computed here by insertion. *)
Fixpoint insertByMonth (entry : Z * num) (sorted : list (Z * num)) : list (Z * num) :=
  match sorted with
  | [] => [entry]
  | next :: rest =>
      if (entry.1 <=? next.1)%Z then entry :: sorted else next :: insertByMonth entry rest
  end.

Definition sortByMonth (entries : list (Z * num)) : list (Z * num) :=
  foldr insertByMonth [] entries.

(** [entries.filter(([m]) => m !== month)] *)
Definition withoutMonth (month : Z) (entries : list (Z * num)) : list (Z * num) :=
  List.filter (fun entry => negb (entry.1 =? month)%Z) entries.

(** [{ ...scenario, lumpSumPayments }] *)
Definition withLumpSums (scenario : Scenario num) (lumpSumPayments : list (Z * num))
    : Scenario num :=
  {| id := id scenario; name := name scenario;
     extraMonthlyPrincipal := extraMonthlyPrincipal scenario;
     lumpSumPayments := lumpSumPayments |}.

(** [parseInt(text) || 1], from the result of [parseInt]: an integer, or NaN
    ([None]); 0 and NaN are falsy. *)
Definition monthOr1 (parsed : option Z) : Z :=
  match parsed with
  | Some 0%Z | None => 1%Z
  | Some month => month
  end.

(** [parseFloat(text) || 0], from the result of [parseFloat]: zero and NaN
    (the one value that is not [===] to itself) are falsy. *)
Definition amountOr0 (parsed : num) : num :=
  if (parsed === ofZ 0) || negb (parsed === parsed) then ofZ 0 else parsed.

(** [handleSaveLumpSum], from the parsed fields of the lump-sum editor
    ([None] when no editor is open); the result is the scenario passed to
    [onUpdate], if any. *)
Definition handleSaveLumpSum (scenario : Scenario num)
    (editingLumpSum : option (option Z * num)) : option (Scenario num) :=
  match editingLumpSum with
  | None => None
  | Some (parsedMonth, parsedAmount) =>
      let month := monthOr1 parsedMonth in
      let amount := amountOr0 parsedAmount in
      let newLumpSums := withoutMonth month (lumpSumPayments scenario) in
      let newLumpSums :=
        if amount >? ofZ 0 then newLumpSums ++ [(month, amount)] else newLumpSums in
      let newLumpSums := sortByMonth newLumpSums in
      Some (withLumpSums scenario newLumpSums)
  end.

(** [handleRemoveLumpSum]: the scenario passed to [onUpdate]. *)
Definition handleRemoveLumpSum (scenario : Scenario num) (month : Z) : Scenario num :=
  withLumpSums scenario (withoutMonth month (lumpSumPayments scenario)).

(** The [scenarios] of [DEFAULT_STATE]. *)
Definition DEFAULT_SCENARIOS : list (Scenario num) :=
  [ {| id := "base"; name := "Base"; extraMonthlyPrincipal := ofZ 0;
       lumpSumPayments := [] |} ].

(** [handleUpdateScenario]: [newScenarios[index] = updated], for an index of
    the array, as the index of a rendered column is. *)
Definition handleUpdateScenario (scenarios : list (Scenario num)) (index : nat)
    (updated : Scenario num) : list (Scenario num) :=
  <[index := updated]> scenarios.

(** [handleRemoveScenario]: [state.scenarios.filter((_, i) => i !== index)],
    the list without its element at [index]. *)
Definition handleRemoveScenario (scenarios : list (Scenario num)) (index : nat)
    : list (Scenario num) :=
  delete index scenarios.

(** [handleAddScenario], at the time [now] that [Date.now()] returns. *)
Definition handleAddScenario (scenarios : list (Scenario num)) (now : Z)
    : list (Scenario num) :=
  scenarios ++
  [ {| id := "scenario-" +:+ pretty now;
       name := "Scenario " +:+ pretty (length scenarios);
       extraMonthlyPrincipal := ofZ 200;
       lumpSumPayments := [] |} ].

(** What a [ScenarioColumn] passes to [onUpdate]: a new name from the name
    field and, from the controls that are rendered only when the scenario is
    not the base one, a new extra principal, a saved or a removed lump
    sum. *)
Inductive onUpdate (scenario : Scenario num) : Scenario num -> Prop :=
| onUpdate_name (text : string) :
    onUpdate scenario
      {| id := id scenario; name := text;
         extraMonthlyPrincipal := extraMonthlyPrincipal scenario;
         lumpSumPayments := lumpSumPayments scenario |}
| onUpdate_extraMonthlyPrincipal (parsed : num) :
    id scenario <> "base" ->
    onUpdate scenario
      {| id := id scenario; name := name scenario;
         extraMonthlyPrincipal := amountOr0 parsed;
         lumpSumPayments := lumpSumPayments scenario |}
| onUpdate_saveLumpSum (editingLumpSum : option (option Z * num)) (updated : Scenario num) :
    id scenario <> "base" ->
    handleSaveLumpSum scenario editingLumpSum = Some updated ->
    onUpdate scenario updated
| onUpdate_removeLumpSum (month : Z) :
    id scenario <> "base" ->
    onUpdate scenario (handleRemoveLumpSum scenario month).

(** One event of the page, on the list of scenarios: an update from the
    column of a scenario, the removal of a scenario other than the first (the
    remove button is rendered when [index > 0]), a new scenario, a reset. *)
Inductive event (scenarios : list (Scenario num)) : list (Scenario num) -> Prop :=
| event_update (index : nat) (scenario updated : Scenario num) :
    scenarios !! index = Some scenario ->
    onUpdate scenario updated ->
    event scenarios (handleUpdateScenario scenarios index updated)
| event_remove (index : nat) :
    (0 < index < length scenarios)%nat ->
    event scenarios (handleRemoveScenario scenarios index)
| event_add (now : Z) :
    event scenarios (handleAddScenario scenarios now)
| event_reset :
    event scenarios DEFAULT_SCENARIOS.
End Page.
End App.

(** ** Exact rational arithmetic *)

#[export] Instance Q_number : Number Q := {|
  ofZ := inject_Z;
  cent := 1 # 100;
  add := Qplus;
  sub := Qminus;
  mul := Qmult;
  div := Qdiv;
  pow := Qpower;
  eqb := Qeq_bool;
  gtb := fun x y => negb (Qle_bool x y);
  leb := Qle_bool;
  min := Qmin;
  max := Qmax
|}.

(** ** IEEE 754 binary64 arithmetic *)

Module F64.
Local Open Scope float_scope.

(** An integer as a float; exact for magnitudes below 2^53. *)
Definition ofZ (z : Z) : float :=
  match z with
  | Z0 => 0
  | Zpos _ => PrimFloat.of_uint63 (Uint63.of_Z z)
  | Zneg p => - PrimFloat.of_uint63 (Uint63.of_Z (Zpos p))
  end.

(** [Math.min] of two arguments: NaN if either is, and -0 below +0. *)
Definition min (x y : float) : float :=
  if PrimFloat.is_nan x || PrimFloat.is_nan y then nan
  else if x <? y then x
  else if y <? x then y
  else match PrimFloat.classify x with NZero => x | _ => y end.

(** [Math.max] of two arguments: NaN if either is, and +0 above -0. *)
Definition max (x y : float) : float :=
  if PrimFloat.is_nan x || PrimFloat.is_nan y then nan
  else if x <? y then y
  else if y <? x then x
  else match PrimFloat.classify x with PZero => x | _ => y end.
End F64.

Definition F64_number (Math_pow : float -> float -> float) : Number float := {|
  ofZ := F64.ofZ;
  cent := 0x1.47ae147ae147bp-7%float;
  add := PrimFloat.add;
  sub := PrimFloat.sub;
  mul := PrimFloat.mul;
  div := PrimFloat.div;
  pow := fun x n => Math_pow x (F64.ofZ n);
  eqb := PrimFloat.eqb;
  gtb := fun x y => PrimFloat.ltb y x;
  leb := PrimFloat.leb;
  min := F64.min;
  max := F64.max
|}.

(** ** Vocabulary of the statements *)

(** The sum of a list of rationals, by recursion on the list. *)
Fixpoint sumQ (l : list Q) : Q :=
  match l with
  | [] => 0
  | x :: l => x + sumQ l
  end.

(** The annuity factor [1 + q + ... + q^(n-1)]. *)
Fixpoint annuityFactor (q : Q) (n : nat) : Q :=
  match n with
  | O => 0
  | S n => 1 + q * annuityFactor q n
  end.

(** The balance after [k] payments of [pay] on a principal [P] that grows by
    the factor [q] each period, when nothing is clamped. *)
Fixpoint amortized (P q pay : Q) (k : nat) : Q :=
  match k with
  | O => P
  | S k => amortized P q pay k * q - pay
  end.

(** Rounding to twelve decimals, downwards and upwards. *)
Definition roundDown (x : Q) : Q := Qfloor (x * 1000000000000) # 1000000000000.
Definition roundUp (x : Q) : Q := Qceiling (x * 1000000000000) # 1000000000000.

(** [q ^ p] by repeated squaring, rounded down (up) after every product: a
    lower (upper) bound of the power that is cheap to evaluate. *)
Fixpoint powDown (q : Q) (p : positive) : Q :=
  match p with
  | xH => q
  | xO p => let y := powDown q p in roundDown (y * y)
  | xI p => let y := powDown q p in roundDown (q * (y * y))
  end.

Fixpoint powUp (q : Q) (p : positive) : Q :=
  match p with
  | xH => q
  | xO p => let y := powUp q p in roundUp (y * y)
  | xI p => let y := powUp q p in roundUp (q * (y * y))
  end.

(** A row with its [totalPayment] recomputed by [total]. *)
Definition withTotalPayment {num : Type} (total : PaymentRow num -> num) (row : PaymentRow num)
    : PaymentRow num :=
  {| month := month row; date := date row; basePayment := basePayment row;
     extraPayment := extraPayment row; totalPayment := total row;
     principalPaid := principalPaid row; interestPaid := interestPaid row;
     remainingBalance := remainingBalance row |}.

(** The characters of a printed integer: the digits and the minus sign. *)
Definition numeric (c : ascii) : bool :=
  match c with
  | "0" | "1" | "2" | "3" | "4" | "5" | "6" | "7" | "8" | "9" | "-" => true
  | _ => false
  end%char.

Fixpoint allNumeric (s : string) : bool :=
  match s with
  | EmptyString => true
  | String c s => numeric c && allNumeric s
  end.

(** The entries of a lump-sum list for month [k], in their order. *)
Definition entriesOf {num : Type} (k : Z) (entries : list (Z * num)) : list (Z * num) :=
  List.filter (fun entry => (entry.1 =? k)%Z) entries.

(** A lump-sum list in strictly ascending order of its months (so with one
    entry per month at most), and one whose amounts are all [> 0]. *)
Definition ascendingMonths {num : Type} (entries : list (Z * num)) : Prop :=
  StronglySorted (fun a b => (a.1 < b.1)%Z) entries.

Definition positiveAmounts {num : Type} {arith : Number num} (entries : list (Z * num)) : Prop :=
  Forall (fun entry => gtb entry.2 (ofZ 0) = true) entries.

(** A list of scenarios that starts with the base scenario, which has no
    extra principal and no lump sum, and has no other scenario of that id. *)
Definition baseFirst {num : Type} {arith : Number num} (scenarios : list (App.Scenario num))
    : Prop :=
  (exists name : string,
     scenarios !! 0%nat
     = Some {| App.id := "base"; App.name := name; App.extraMonthlyPrincipal := ofZ 0;
               App.lumpSumPayments := [] |}) /\
  (forall (i : nat) (scenario : App.Scenario num),
     scenarios !! S i = Some scenario -> App.id scenario <> "base").

Definition lumpSumsInOrder {num : Type} {arith : Number num}
    (scenarios : list (App.Scenario num)) : Prop :=
  Forall (fun scenario =>
    ascendingMonths (App.lumpSumPayments scenario) /\
    positiveAmounts (App.lumpSumPayments scenario)) scenarios.

(** ** Inputs used in the statements *)

(** The loan used to exercise the statements: 1000 at 12% over 3 months. *)
Definition sampleLoan : MortgageInputs Q :=
  {| principal := 1000; annualRate := 12; termMonths := 3; startDate := 24300;
     extraMonthlyPayment := 50 |}.

(** Fifty extra every month, and 100 on top in month 2. *)
Definition sampleOverride : ScenarioOverride Q :=
  {| extraMonthlyPrincipal := 50; lumpSumPayments := {[ 2%Z := 100 ]} |}.

(** The loan of the specification's scenarios: 300000 at 6.5% over 360
    months. *)
Definition loan300k : MortgageInputs Q :=
  {| principal := 300000; annualRate := 6.5; termMonths := 360; startDate := 24300;
     extraMonthlyPayment := 0 |}.

(** A lump sum of 400000 in month 1. *)
Definition lump400k : ScenarioOverride Q :=
  {| extraMonthlyPrincipal := 0; lumpSumPayments := {[ 1%Z := 400000 ]} |}.



(** 300000 over 360 months, free of interest. *)
Definition interestFree300k : MortgageInputs float :=
  {| principal := 300000%float; annualRate := 0%float; termMonths := 360; startDate := 24300;
     extraMonthlyPayment := 0%float |}.

(** The loans of half a cent and of three cents, in binary64: the principals
    are the doubles nearest to 0.005 and to 0.03. *)
Definition halfCentLoan64 : MortgageInputs float :=
  {| principal := 0x1.47ae147ae147bp-8%float; annualRate := 6.5%float; termMonths := 360;
     startDate := 24300; extraMonthlyPayment := 0%float |}.

Definition threeCentLoan64 : MortgageInputs float :=
  {| principal := 0x1.eb851eb851eb8p-6%float; annualRate := 0%float; termMonths := 4;
     startDate := 24300; extraMonthlyPayment := 0%float |}.

(** 200 of extra principal every month. *)
Definition extra200 : ScenarioOverride float :=
  {| extraMonthlyPrincipal := 200%float; lumpSumPayments := ∅ |}.

(** A scenario with 50 extra every month and lump sums in months 2 and 5,
    and the base scenario. *)
Definition sampleScenario : App.Scenario Q :=
  {| App.id := "scenario-1"; App.name := "Scenario 1"; App.extraMonthlyPrincipal := 50;
     App.lumpSumPayments := [(2%Z, 100); (5%Z, 200)] |}.

Definition sampleBase : App.Scenario Q :=
  {| App.id := "base"; App.name := "Base"; App.extraMonthlyPrincipal := 0;
     App.lumpSumPayments := [] |}.

(** The list of scenarios after a scenario was added to the default list and
    a lump sum of 10000 saved for its month 12. *)
Definition sampleScenarios : list (App.Scenario Q) :=
  [ {| App.id := "base"; App.name := "Base"; App.extraMonthlyPrincipal := 0;
       App.lumpSumPayments := [] |};
    {| App.id := "scenario-1700000000000"; App.name := "Scenario 1";
       App.extraMonthlyPrincipal := 200;
       App.lumpSumPayments := [(12%Z, 10000)] |} ].

(** [for_any_pow f v]: the code [f] yields [v] whatever [Math.pow] is. *)
Definition for_any_pow {A : Type} (f : (float -> float -> float) -> A) (v : A) : Prop :=
  forall Math_pow : float -> float -> float, f Math_pow = v.

(** * Properties *)

(** ** The loop, unfolded *)

Section LoopFacts.
Context {num : Type} {arith : Number num}.
Variable inputs : MortgageInputs num.
Variable overrides : option (ScenarioOverride num).
Local Open Scope num_scope.

Abbreviation body := (period inputs overrides).
Abbreviation loop_ := (loop inputs overrides).
Abbreviation rows_ := (rows inputs overrides).
Abbreviation continues_ := (continues inputs).

Lemma loop_step (month : Z) (remainingBalance : num) (schedule : list (PaymentRow num)) :
  loop_ month remainingBalance schedule =
  if continues_ month remainingBalance then
    if snd (body month remainingBalance) <=? cent
    then schedule ++ [fst (body month remainingBalance)]
    else loop_ (month + 1)%Z (snd (body month remainingBalance))
              (schedule ++ [fst (body month remainingBalance)])
  else schedule.
Proof.
  rewrite loop_equation_1. unfold inspect.
  enough (forall (b : bool) (e : continues_ month remainingBalance = b),
    loop_unfold_clause_1 inputs overrides month remainingBalance (exist _ b e) schedule =
    if b then
      if snd (body month remainingBalance) <=? cent
      then schedule ++ [fst (body month remainingBalance)]
      else loop_ (month + 1)%Z (snd (body month remainingBalance))
                (schedule ++ [fst (body month remainingBalance)])
    else schedule) as H by apply H.
  intros [] e; reflexivity.
Qed.

(** Rows are only ever pushed at the end: the rows a run adds do not
    depend on the rows already there. *)
Lemma loop_acc (month : Z) (remainingBalance : num) (schedule : list (PaymentRow num)) :
  loop_ month remainingBalance schedule = schedule ++ loop_ month remainingBalance [].
Proof.
  remember (Z.to_nat (termMonths inputs + 1 - month)) as n eqn:Hn.
  revert month remainingBalance schedule Hn.
  induction n as [n IH] using lt_wf_ind. intros month rb schedule Hn.
  rewrite (loop_step month rb schedule), (loop_step month rb []).
  destruct (continues_ month rb) eqn:Hc; [|by rewrite app_nil_r].
  destruct (snd (body month rb) <=? cent); [done|].
  apply andb_true_iff in Hc as [Hm _]. apply Z.leb_le in Hm.
  simpl.
  rewrite (IH (Z.to_nat (termMonths inputs + 1 - (month + 1))) ltac:(lia) _ _ (_ ++ _) eq_refl).
  rewrite (IH (Z.to_nat (termMonths inputs + 1 - (month + 1))) ltac:(lia) _ _ [_] eq_refl).
  by rewrite app_assoc.
Qed.

Lemma rows_unfold (month : Z) (remainingBalance : num) :
  rows_ month remainingBalance =
  if continues_ month remainingBalance then
    fst (body month remainingBalance) ::
      (if snd (body month remainingBalance) <=? cent then []
       else rows_ (month + 1)%Z (snd (body month remainingBalance)))
  else [].
Proof.
  unfold rows. rewrite loop_step.
  destruct (continues_ month remainingBalance); [|done].
  destruct (snd (body month remainingBalance) <=? cent); [done|].
  by rewrite loop_acc.
Qed.

Lemma schedule_rows : generateAmortizationSchedule inputs overrides = rows_ 1%Z (principal inputs).
Proof. reflexivity. Qed.

(** Induction along a run of the loop. *)
Lemma rows_ind (P : Z -> num -> list (PaymentRow num) -> Prop) :
  (forall month rb, continues_ month rb = false -> P month rb []) ->
  (forall month rb, continues_ month rb = true ->
     (snd (body month rb) <=? cent) = true ->
     P month rb [fst (body month rb)]) ->
  (forall month rb, continues_ month rb = true ->
     (snd (body month rb) <=? cent) = false ->
     P (month + 1)%Z (snd (body month rb)) (rows_ (month + 1)%Z (snd (body month rb))) ->
     P month rb (fst (body month rb) :: rows_ (month + 1) (snd (body month rb)))) ->
  forall month rb, P month rb (rows_ month rb).
Proof.
  intros Hstop Hbreak Hnext month.
  remember (Z.to_nat (termMonths inputs + 1 - month)) as n eqn:Hn.
  revert month Hn. induction n as [n IH] using lt_wf_ind. intros month Hn rb.
  rewrite rows_unfold.
  destruct (continues_ month rb) eqn:Hc; [|by apply Hstop].
  destruct (snd (body month rb) <=? cent) eqn:Hb; [by apply Hbreak|].
  apply Hnext; [done..|].
  apply andb_true_iff in Hc as [Hm _]. apply Z.leb_le in Hm.
  apply (IH (Z.to_nat (termMonths inputs + 1 - (month + 1)))); [lia|done].
Qed.

Lemma rows_run (month : Z) (rb : num) : run inputs overrides month rb (rows_ month rb).
Proof.
  apply rows_ind; intros; [by apply run_stop|by apply run_break|by apply run_next].
Qed.

Lemma run_length (month : Z) (rb : num) (s : list (PaymentRow num)) :
  run inputs overrides month rb s ->
  (Z.of_nat (length s) <= Z.max 0 (termMonths inputs + 1 - month))%Z.
Proof.
  induction 1 as [m b Hc|m b Hc Hb|m b s Hc Hb Hrun IH]; simpl length.
  - lia.
  - apply andb_true_iff in Hc as [Hm _]. apply Z.leb_le in Hm. lia.
  - apply andb_true_iff in Hc as [Hm _]. apply Z.leb_le in Hm. lia.
Qed.

(** Every row of a run is the loop body at its month, entered with some
    balance; so, in any arithmetic, its [extraPayment] is its [principalPaid]
    minus the base principal portion. *)
Lemma run_rows (month : Z) (rb : num) (s : list (PaymentRow num)) :
  run inputs overrides month rb s ->
  forall (i : nat) (row : PaymentRow num), s !! i = Some row ->
  exists b : num, row = fst (body (month + Z.of_nat i)%Z b).
Proof.
  induction 1 as [m b Hc|m b Hc Hb|m b s Hc Hb Hrun IH]; intros i row Hi.
  - done.
  - destruct i as [|i]; [|done]. injection Hi as <-. exists b. by rewrite Z.add_0_r.
  - destruct i as [|i].
    + injection Hi as <-. exists b. by rewrite Z.add_0_r.
    + destruct (IH i row Hi) as [b' ->]. exists b'.
      by replace (m + Z.of_nat (S i))%Z with (m + 1 + Z.of_nat i)%Z by lia.
Qed.

Lemma schedule_row_extra (i : nat) (row : PaymentRow num) :
  generateAmortizationSchedule inputs overrides !! i = Some row ->
  extraPayment row = principalPaid row - (basePayment row - interestPaid row).
Proof.
  intros Hi. destruct (run_rows 1 (principal inputs) _ (rows_run _ _) i row Hi) as [b ->].
  reflexivity.
Qed.
End LoopFacts.

(** ** Exact arithmetic: one period *)

Section Exact.
Variable inputs : MortgageInputs Q.
Variable overrides : option (ScenarioOverride Q).
Local Open Scope Q_scope.

Abbreviation nMonths := (termMonths inputs).
Abbreviation rate := (annualRate inputs / 100 / 12).
Abbreviation pay :=
  (calculateMonthlyPayment (principal inputs) (annualRate inputs) (termMonths inputs)).
Abbreviation periodQ := (period inputs overrides).

Lemma continues_true (m : Z) (B : Q) :
  continues inputs m B = true <-> (m <= nMonths)%Z /\ 1 # 100 < B.
Proof.
  unfold continues. cbn [gtb cent Q_number].
  rewrite andb_true_iff, Z.leb_le, negb_true_iff.
  split; intros [Hm HB]; (split; [done|]).
  - apply Qnot_le_lt. intros Hle. apply Qle_bool_iff in Hle. congruence.
  - apply not_true_is_false. intros Hle. apply Qle_bool_iff in Hle. lra.
Qed.

Lemma continues_false (m : Z) (B : Q) :
  continues inputs m B = false <-> (nMonths < m)%Z \/ B <= 1 # 100.
Proof.
  rewrite <- not_true_iff_false, continues_true. split.
  - intros Hn. destruct (Z_lt_le_dec nMonths m) as [?|Hm]; [by left|right].
    destruct (Qlt_le_dec (1 # 100) B) as [HB|?]; [|done]. by destruct Hn.
  - intros [?|?] [? ?]; [lia|lra].
Qed.

Lemma leb_cent_true (x : Q) : leb x cent = true <-> x <= 1 # 100.
Proof. apply Qle_bool_iff. Qed.

Lemma leb_cent_false (x : Q) : leb x cent = false <-> 1 # 100 < x.
Proof.
  rewrite <- not_true_iff_false, leb_cent_true. split.
  - apply Qnot_le_lt.
  - intros ? ?. lra.
Qed.

(** What one pass through the loop body computes. *)
Lemma period_fields (m : Z) (B : Q) :
  let row := fst (periodQ m B) in
  month row = m /\
  date row = (startDate inputs + (m - 1))%Z /\
  basePayment row = pay /\
  interestPaid row = B * rate /\
  principalPaid row = Qmin (pay - B * rate + requestedExtra overrides m) B /\
  extraPayment row = principalPaid row - (pay - B * rate) /\
  totalPayment row = pay + extraPayment row + extraMonthlyPayment inputs /\
  remainingBalance row = Qmax 0 (B - principalPaid row) /\
  snd (periodQ m B) = B - principalPaid row.
Proof. repeat split. Qed.

(** From here on the loop body is used through [period_fields] only. *)
Opaque period.

(** The clamp never takes more than the balance. *)
Lemma period_balance_nonneg (m : Z) (B : Q) : 0 <= snd (periodQ m B).
Proof.
  destruct (period_fields m B) as (_ & _ & _ & _ & Hp & _ & _ & _ & ->).
  rewrite Hp. pose proof (Q.le_min_r (pay - B * rate + requestedExtra overrides m) B). lra.
Qed.

Lemma period_balance_stored (m : Z) (B : Q) :
  remainingBalance (fst (periodQ m B)) == snd (periodQ m B).
Proof.
  pose proof (period_balance_nonneg m B) as Hnn.
  destruct (period_fields m B) as (_ & _ & _ & _ & _ & _ & _ & -> & Hs).
  rewrite Hs in *. by apply Q.max_r.
Qed.

(** ** Exact arithmetic: the rows of a run *)

(** Row [i] of a run entered at month [m] with balance [B]: it is the loop
    body at month [m + i], entered with the balance the schedule shows after
    [i] periods, which exceeds 0.01; a row that is followed by another left
    more than 0.01, and the last row left at most 0.01 or is the row of month
    [termMonths]. *)
Lemma run_lookup (m : Z) (B : Q) (s : list (PaymentRow Q)) :
  run inputs overrides m B s ->
  forall (i : nat) (row : PaymentRow Q), s !! i = Some row ->
  exists Bi b : Q,
    balanceAfter B s i = Some b /\ b == Bi /\ 1 # 100 < Bi /\
    (m + Z.of_nat i <= nMonths)%Z /\
    row = fst (periodQ (m + Z.of_nat i) Bi) /\
    ((S i < length s)%nat -> 1 # 100 < snd (periodQ (m + Z.of_nat i) Bi)) /\
    (S i = length s ->
       snd (periodQ (m + Z.of_nat i) Bi) <= 1 # 100 \/ (m + Z.of_nat i = nMonths)%Z).
Proof.
  induction 1 as [m B Hc|m B Hc Hb|m B s Hc Hb Hrun IH]; intros i row Hi.
  - done.
  - destruct i as [|i]; [|done]. injection Hi as <-.
    apply continues_true in Hc as [Hm HB]. apply leb_cent_true in Hb.
    exists B, B. rewrite Z.add_0_r. simpl. repeat split; try done; [lia|by left].
  - apply continues_true in Hc as [Hm HB]. apply leb_cent_false in Hb.
    destruct i as [|i].
    + injection Hi as <-. exists B, B. rewrite Z.add_0_r. simpl.
      repeat split; try done.
      intros Hlen. destruct s; [|done]. right.
      inversion Hrun as [? ? Hc'| |]; subst.
      apply continues_false in Hc' as [?|?]; [lia|lra].
    + simpl in Hi.
      destruct (IH i row Hi) as (Bi & b & Hb' & Hbeq & HBi & Hm' & Hrow & Hmid & Hlast).
      replace (m + Z.of_nat (S i))%Z with (m + 1 + Z.of_nat i)%Z by lia.
      exists Bi. destruct i as [|i].
      * exists (remainingBalance (fst (periodQ m B))). simpl in Hb'. injection Hb' as <-.
        simpl. repeat split; try done.
        -- eapply Qeq_trans; [apply period_balance_stored|done].
        -- intros Hlen. apply Hmid. lia.
        -- intros Hlen. apply Hlast. lia.
      * exists b. simpl. simpl in Hb'. repeat split; try done.
        -- intros Hlen. apply Hmid. lia.
        -- intros Hlen. apply Hlast. lia.
Qed.

(** The same, for a generated schedule. *)
Lemma schedule_lookup (i : nat) (row : PaymentRow Q) :
  generateAmortizationSchedule inputs overrides !! i = Some row ->
  exists Bi b : Q,
    balanceAfter (principal inputs) (generateAmortizationSchedule inputs overrides) i = Some b /\
    b == Bi /\ 1 # 100 < Bi /\
    (Z.of_nat i + 1 <= nMonths)%Z /\
    row = fst (periodQ (Z.of_nat i + 1) Bi) /\
    ((S i < length (generateAmortizationSchedule inputs overrides))%nat ->
       1 # 100 < snd (periodQ (Z.of_nat i + 1) Bi)) /\
    (S i = length (generateAmortizationSchedule inputs overrides) ->
       snd (periodQ (Z.of_nat i + 1) Bi) <= 1 # 100 \/ (Z.of_nat i + 1 = nMonths)%Z).
Proof.
  intros Hi. rewrite (Z.add_comm (Z.of_nat i) 1).
  apply (run_lookup 1 (principal inputs)); [apply rows_run|done].
Qed.
End Exact.

(** ** The summary *)

Lemma fold_left_sumQ (f : PaymentRow Q -> Q) (s : list (PaymentRow Q)) (a : Q) :
  fold_left (fun sum row => sum + f row) s a == a + sumQ (map f s).
Proof.
  revert a. induction s as [|row s IH]; intros a; simpl.
  - ring.
  - rewrite IH. ring.
Qed.

Lemma reduce_sum_sumQ (f : PaymentRow Q -> Q) (s : list (PaymentRow Q)) :
  reduce_sum f s == sumQ (map f s).
Proof.
  unfold reduce_sum. cbn [add ofZ Q_number].
  rewrite (fold_left_sumQ f s (inject_Z 0)). unfold inject_Z. ring.
Qed.

(** C6. [calculateSummary] returns the sum of [interestPaid] over the rows as
    [totalInterestPaid], the sum of [totalPayment] as [totalPaid] and the row
    count as [monthsToPayoff]; with a baseline, [interestSaved] is the
    baseline's interest sum minus [totalInterestPaid] and [monthsSaved] the
    baseline's row count minus [monthsToPayoff]; without one, both are 0. *)
Theorem C6_summary (schedule : list (PaymentRow Q)) :
  (forall baseSchedule : option (list (PaymentRow Q)),
     totalInterestPaid (calculateSummary schedule baseSchedule)
       == sumQ (map interestPaid schedule) /\
     totalPaid (calculateSummary schedule baseSchedule)
       == sumQ (map totalPayment schedule) /\
     monthsToPayoff (calculateSummary schedule baseSchedule)
       = Z.of_nat (length schedule)) /\
  (forall baseline : list (PaymentRow Q),
     interestSaved (calculateSummary schedule (Some baseline))
       == sumQ (map interestPaid baseline)
          - totalInterestPaid (calculateSummary schedule (Some baseline)) /\
     monthsSaved (calculateSummary schedule (Some baseline))
       = (Z.of_nat (length baseline)
          - monthsToPayoff (calculateSummary schedule (Some baseline)))%Z) /\
  interestSaved (calculateSummary schedule None) == 0 /\
  monthsSaved (calculateSummary schedule None) = 0%Z.
Proof.
  split; [|split; [|split]].
  - intros [baseline|]; simpl; repeat split; apply reduce_sum_sumQ.
  - intros baseline. simpl. split; [|done].
    cbn [sub Q_number]. rewrite (reduce_sum_sumQ interestPaid baseline). reflexivity.
  - reflexivity.
  - reflexivity.
Qed.

(** ** The payment *)

Lemma payment_cases (P R : Q) (n : Z) :
  (R / 100 / 12 == 0 /\ calculateMonthlyPayment P R n == P / inject_Z n) \/
  (~ R / 100 / 12 == 0 /\
   calculateMonthlyPayment P R n
     == P * (R / 100 / 12 * (1 + R / 100 / 12) ^ n) / ((1 + R / 100 / 12) ^ n - 1)).
Proof.
  unfold calculateMonthlyPayment.
  cbn [add sub mul div pow eqb ofZ Q_number].
  change (inject_Z 100) with 100. change (inject_Z 12) with 12.
  change (inject_Z 1) with 1. change (inject_Z 0) with 0.
  destruct (Qeq_bool (R / 100 / 12) 0) eqn:Hz.
  - apply Qeq_bool_iff in Hz. left. split; [done|reflexivity].
  - apply Qeq_bool_neq in Hz. right. split; [done|].
    generalize ((1 + R / 100 / 12) ^ n). intros qn. unfold Qdiv. ring.
Qed.

(** C2. [calculateMonthlyPayment] returns [P / N] when the monthly rate
    [r = R / 100 / 12] is zero, and [P * (r * (1 + r)^N) / ((1 + r)^N - 1)]
    otherwise. *)
Theorem C2_payment_formula (P R : Q) (n : Z) :
  (R / 100 / 12 == 0 -> calculateMonthlyPayment P R n == P / inject_Z n) /\
  (~ R / 100 / 12 == 0 ->
     calculateMonthlyPayment P R n
       == P * (R / 100 / 12 * (1 + R / 100 / 12) ^ n) / ((1 + R / 100 / 12) ^ n - 1)).
Proof.
  destruct (payment_cases P R n) as [[Hz Hp]|[Hz Hp]]; split; intros Hr; done.
Qed.

(** ** The annuity *)

Lemma rate_nonneg (R : Q) : 0 <= R -> 0 <= R / 100 / 12.
Proof.
  intros HR. assert (R / 100 / 12 == R * (1 # 1200)) as -> by field. lra.
Qed.

Lemma rate_zero (R : Q) : R / 100 / 12 == 0 <-> R == 0.
Proof.
  assert (R / 100 / 12 == R * (1 # 1200)) as -> by field.
  split; intros H; lra.
Qed.

Lemma Qpower_succ (q : Q) (n : nat) : q ^ Z.of_nat (S n) == q * q ^ Z.of_nat n.
Proof.
  rewrite Nat2Z.inj_succ, <- Z.add_1_l, Qpower_plus' by lia. reflexivity.
Qed.

Lemma annuityFactor_geometric (q : Q) (n : nat) :
  (q - 1) * annuityFactor q n == q ^ Z.of_nat n - 1.
Proof.
  induction n as [|n IH].
  - simpl. ring.
  - rewrite Qpower_succ. cbn [annuityFactor].
    assert ((q - 1) * (1 + q * annuityFactor q n)
            == q - 1 + q * ((q - 1) * annuityFactor q n)) as -> by ring.
    rewrite IH. ring.
Qed.

Lemma annuityFactor_step (q : Q) (n : nat) :
  annuityFactor q (S n) == annuityFactor q n + q ^ Z.of_nat n.
Proof.
  induction n as [|n IH].
  - simpl. ring.
  - rewrite Qpower_succ. cbn [annuityFactor] in *. rewrite IH at 1. ring.
Qed.

Lemma annuityFactor_one (q : Q) (n : nat) :
  q == 1 -> annuityFactor q n == inject_Z (Z.of_nat n).
Proof.
  intros Hq. induction n as [|n IH].
  - reflexivity.
  - cbn [annuityFactor]. rewrite IH, Hq, Nat2Z.inj_succ, <- Z.add_1_r, inject_Z_plus.
    change (inject_Z 1) with 1. ring.
Qed.

Lemma Qpower_ge_1 (q : Q) (n : nat) : 1 <= q -> 1 <= q ^ Z.of_nat n.
Proof.
  intros Hq. induction n as [|n IH].
  - simpl. lra.
  - rewrite Qpower_succ. nra.
Qed.

Lemma annuityFactor_ge_1 (q : Q) (n : nat) : 1 <= q -> 1 <= annuityFactor q (S n).
Proof.
  intros Hq. induction n as [|n IH].
  - simpl. lra.
  - cbn [annuityFactor] in *.
    assert (0 <= q * (1 + q * annuityFactor q n)) by (apply Qmult_le_0_compat; lra).
    lra.
Qed.

Lemma annuityFactor_le (q : Q) (n : nat) :
  1 <= q -> annuityFactor q n <= inject_Z (Z.of_nat n) * q ^ Z.of_nat n.
Proof.
  intros Hq. induction n as [|n IH].
  - discriminate.
  - rewrite annuityFactor_step, Qpower_succ, Nat2Z.inj_succ, <- Z.add_1_r, inject_Z_plus.
    change (inject_Z 1) with 1.
    pose proof (Qpower_ge_1 q n Hq) as Hp.
    assert (0 <= inject_Z (Z.of_nat n)) as Hn.
    { change 0 with (inject_Z 0). rewrite <- Zle_Qle. lia. }
    set (a := annuityFactor q n) in *. set (p := q ^ Z.of_nat n) in *.
    set (k := inject_Z (Z.of_nat n)) in *.
    assert (0 <= (k + 1) * p * (q - 1)) as Hprod.
    { apply Qmult_le_0_compat; [apply Qmult_le_0_compat|]; lra. }
    lra.
Qed.

(** For a non-negative rate and a term of at least one month the code divides
    by no zero, so that its rational reading involves no infinity or NaN. *)
Lemma payment_divisors_nonzero (R : Q) (n : Z) :
  0 <= R -> (1 <= n)%Z ->
  ~ inject_Z n == 0 /\
  (~ R / 100 / 12 == 0 -> ~ (1 + R / 100 / 12) ^ n - 1 == 0).
Proof.
  intros HR Hn. pose proof (rate_nonneg R HR) as Hr. split.
  - change 0 with (inject_Z 0). rewrite inject_Z_injective. lia.
  - intros Hz Hden.
    pose proof (annuityFactor_geometric (1 + R / 100 / 12) (Z.to_nat n)) as Hgeo.
    rewrite Z2Nat.id in Hgeo by lia. rewrite Hden in Hgeo.
    destruct (Z.to_nat n) as [|k] eqn:Hk; [lia|].
    pose proof (annuityFactor_ge_1 (1 + R / 100 / 12) k ltac:(lra)) as Hf.
    revert Hgeo Hf. generalize (annuityFactor (1 + R / 100 / 12) (S k)). intros f Hgeo Hf.
    assert (0 < R / 100 / 12 * f) by (apply Qmult_lt_0_compat; lra). lra.
Qed.

(** The payment is the annuity payment: [annuityFactor] payments, discounted,
    make up the principal.  This covers both branches of the code. *)
Lemma annuity_identity (P R : Q) (n : Z) :
  0 <= R -> (1 <= n)%Z ->
  calculateMonthlyPayment P R n * annuityFactor (1 + R / 100 / 12) (Z.to_nat n)
    == P * (1 + R / 100 / 12) ^ n.
Proof.
  intros HR Hn. pose proof (rate_nonneg R HR) as Hr.
  rewrite <- (Z2Nat.id n) at 1 3 by lia.
  destruct (Z.to_nat n) as [|k] eqn:Hk; [lia|].
  pose proof (annuityFactor_ge_1 (1 + R / 100 / 12) k ltac:(lra)) as Hf.
  destruct (payment_cases P R (Z.of_nat (S k))) as [[Hz Hp]|[Hz Hp]]; rewrite Hp.
  - assert (1 + R / 100 / 12 == 1) as Hq by (rewrite Hz; ring).
    rewrite (annuityFactor_one _ _ Hq), Hq, Qpower_1.
    field. change 0 with (inject_Z 0). rewrite inject_Z_injective. lia.
  - pose proof (annuityFactor_geometric (1 + R / 100 / 12) (S k)) as Hgeo.
    rewrite <- Hgeo.
    assert (1 + R / 100 / 12 - 1 == R / 100 / 12) as -> by ring.
    generalize dependent (annuityFactor (1 + R / 100 / 12) (S k)).
    generalize ((1 + R / 100 / 12) ^ Z.of_nat (S k)).
    generalize dependent (R / 100 / 12).
    intros r Hr Hz _ qn f Hf _. field. split; [lra|done].
Qed.

Lemma payment_nonneg (P R : Q) (n : Z) :
  0 <= P -> 0 <= R -> (1 <= n)%Z -> 0 <= calculateMonthlyPayment P R n.
Proof.
  intros HP HR Hn. pose proof (rate_nonneg R HR) as Hr.
  pose proof (annuity_identity P R n HR Hn) as Hid.
  pose proof (Qpower_ge_1 (1 + R / 100 / 12) (Z.to_nat n) ltac:(lra)) as Hq.
  rewrite Z2Nat.id in Hq by lia.
  destruct (Z.to_nat n) as [|k] eqn:Hk; [lia|].
  pose proof (annuityFactor_ge_1 (1 + R / 100 / 12) k ltac:(lra)) as Hf.
  revert Hid Hq Hf.
  generalize (annuityFactor (1 + R / 100 / 12) (S k)), ((1 + R / 100 / 12) ^ n),
    (calculateMonthlyPayment P R n).
  intros f qn p Hid Hq Hf.
  destruct (Qlt_le_dec p 0) as [Hneg|]; [exfalso|done].
  assert (0 <= P * qn) by (apply Qmult_le_0_compat; lra).
  assert (0 <= (0 - p) * (f - 1)) by (apply Qmult_le_0_compat; lra).
  lra.
Qed.

(** C8 (as the code has it). In exact arithmetic, for [P > 0], [R >= 0] and
    [N >= 1] the payment times [N] is at least [P], and for [R = 0] the
    payment is [P / N] and the product is [P].  In binary64 arithmetic the
    payment for a zero rate is the rounded quotient [P / N], whatever
    [Math.pow] is. *)
Theorem C8_payment_covers_principal (P R : Q) (n : Z) :
  0 < P -> 0 <= R -> (1 <= n)%Z ->
  P <= calculateMonthlyPayment P R n * inject_Z n /\
  (R == 0 ->
     calculateMonthlyPayment P R n == P / inject_Z n /\
     calculateMonthlyPayment P R n * inject_Z n == P) /\
  (forall (Math_pow : float -> float -> float) (P64 : float),
     @calculateMonthlyPayment float (F64_number Math_pow) P64 0%float n
       = PrimFloat.div P64 (F64.ofZ n)).
Proof.
  intros HP HR Hn. pose proof (rate_nonneg R HR) as Hr.
  assert (0 < inject_Z n) as Hn0.
  { change 0 with (inject_Z 0). rewrite <- Zlt_Qlt. lia. }
  split; [|split; [|reflexivity]].
  - pose proof (annuity_identity P R n HR Hn) as Hid.
    pose proof (annuityFactor_le (1 + R / 100 / 12) (Z.to_nat n) ltac:(lra)) as Hle.
    rewrite Z2Nat.id in Hle by lia.
    pose proof (Qpower_ge_1 (1 + R / 100 / 12) (Z.to_nat n) ltac:(lra)) as Hq.
    rewrite Z2Nat.id in Hq by lia.
    destruct (Z.to_nat n) as [|k] eqn:Hk; [lia|].
    pose proof (annuityFactor_ge_1 (1 + R / 100 / 12) k ltac:(lra)) as Hf.
    revert Hid Hle Hq Hf.
    generalize (annuityFactor (1 + R / 100 / 12) (S k)), ((1 + R / 100 / 12) ^ n),
      (calculateMonthlyPayment P R n), (inject_Z n), Hn0.
    intros f qn p N HN Hid Hle Hq Hf.
    destruct (Qlt_le_dec (p * N) P) as [Hlt|]; [exfalso|done].
    assert (p * f * N == P * qn * N) as Hid' by (rewrite Hid; ring).
    assert (0 < (P - p * N) * f) by (apply Qmult_lt_0_compat; lra).
    assert (0 <= P * (N * qn - f)) by (apply Qmult_le_0_compat; lra).
    lra.
  - intros HR0. apply rate_zero in HR0.
    destruct (payment_cases P R n) as [[_ Hp]|[Hz _]]; [|done].
    split; [done|]. rewrite Hp. field. lra.
Qed.

Lemma C8_payment_covers_principal_witness :
  1000 <= calculateMonthlyPayment 1000 0 3 * inject_Z 3 /\
  (0 == 0 ->
     calculateMonthlyPayment 1000 0 3 == 1000 / inject_Z 3 /\
     calculateMonthlyPayment 1000 0 3 * inject_Z 3 == 1000) /\
  (forall (Math_pow : float -> float -> float) (P64 : float),
     @calculateMonthlyPayment float (F64_number Math_pow) P64 0%float 3
       = PrimFloat.div P64 (F64.ofZ 3)).
Proof.
  apply (C8_payment_covers_principal 1000 0 3); [reflexivity|discriminate|lia].
Defined.

(** ** The unclamped balance *)

Lemma amortized_closed (P q p : Q) (k : nat) :
  amortized P q p k == P * q ^ Z.of_nat k - p * annuityFactor q k.
Proof.
  induction k as [|k IH].
  - simpl. ring.
  - rewrite Qpower_succ. cbn [amortized annuityFactor]. rewrite IH. ring.
Qed.

(** The payment amortizes the principal over exactly [termMonths] periods. *)
Lemma amortized_end (P R : Q) (n : Z) :
  0 <= R -> (1 <= n)%Z ->
  amortized P (1 + R / 100 / 12) (calculateMonthlyPayment P R n) (Z.to_nat n) == 0.
Proof.
  intros HR Hn. rewrite amortized_closed, Z2Nat.id by lia.
  rewrite (annuity_identity P R n HR Hn). ring.
Qed.

(** Within the term the unclamped balance is not negative, its interest does
    not exceed the payment, and before the last payment it is at least the
    discounted payment. *)
Lemma amortized_bounds (P R : Q) (n : Z) (j k : nat) :
  0 <= P -> 0 <= R -> (1 <= n)%Z -> (k + j)%nat = Z.to_nat n ->
  0 <= amortized P (1 + R / 100 / 12) (calculateMonthlyPayment P R n) k /\
  R / 100 / 12 * amortized P (1 + R / 100 / 12) (calculateMonthlyPayment P R n) k
    <= calculateMonthlyPayment P R n /\
  ((1 <= j)%nat ->
   calculateMonthlyPayment P R n
     <= (1 + R / 100 / 12)
        * amortized P (1 + R / 100 / 12) (calculateMonthlyPayment P R n) k).
Proof.
  intros HP HR Hn. pose proof (rate_nonneg R HR) as Hr.
  pose proof (payment_nonneg P R n HP HR Hn) as Hp.
  pose proof (amortized_end P R n HR Hn) as Hend.
  revert Hr Hp Hend.
  generalize (R / 100 / 12), (calculateMonthlyPayment P R n). intros r p Hr Hp Hend.
  revert k. induction j as [|j IH]; intros k Hk.
  - rewrite Nat.add_0_r in Hk. subst k. rewrite Hend.
    split; [lra|]. split; [lra|lia].
  - destruct (IH (S k) ltac:(lia)) as (H0 & Hi & _). cbn [amortized] in H0, Hi.
    revert H0 Hi. generalize (amortized P (1 + r) p k). intros u H0 Hi.
    assert (0 <= u) as Hu.
    { destruct (Qlt_le_dec u 0) as [Hneg|]; [exfalso|done].
      assert (0 <= (0 - u) * r) by (apply Qmult_le_0_compat; lra). lra. }
    split; [done|]. split; [|intros _; lra].
    destruct (Qlt_le_dec p (r * u)) as [Hgt|]; [exfalso|done].
    assert (0 <= (r * u - p) * r) by (apply Qmult_le_0_compat; lra). lra.
Qed.

(** ** Rows of a schedule *)

Lemma schedule_nil_iff (inputs : MortgageInputs Q) (overrides : option (ScenarioOverride Q)) :
  generateAmortizationSchedule inputs overrides = [] <->
  (termMonths inputs < 1)%Z \/ principal inputs <= 1 # 100.
Proof.
  rewrite schedule_rows, rows_unfold, <- continues_false.
  destruct (continues inputs 1 (principal inputs)); split; done.
Qed.

Section Rows.
Variable inputs : MortgageInputs Q.
Variable overrides : option (ScenarioOverride Q).
Local Open Scope Q_scope.

Abbreviation schedule := (generateAmortizationSchedule inputs overrides).

(** Every row, in terms of the balance the schedule shows before it. *)
Lemma row_facts (i : nat) (row : PaymentRow Q) :
  schedule !! i = Some row ->
  exists before : Q,
    balanceAfter (principal inputs) schedule i = Some before /\
    1 # 100 < before /\
    month row = (Z.of_nat i + 1)%Z /\
    basePayment row
      = calculateMonthlyPayment (principal inputs) (annualRate inputs) (termMonths inputs) /\
    interestPaid row == before * (annualRate inputs / 100 / 12) /\
    principalPaid row
      == Qmin (basePayment row - interestPaid row + requestedExtra overrides (month row)) before /\
    extraPayment row == principalPaid row - (basePayment row - interestPaid row) /\
    totalPayment row == basePayment row + extraPayment row + extraMonthlyPayment inputs /\
    remainingBalance row == before - principalPaid row /\
    ((S i < length schedule)%nat -> 1 # 100 < remainingBalance row).
Proof.
  intros Hi.
  destruct (schedule_lookup inputs overrides i row Hi)
    as (Bi & b & Hb & Hbeq & HBi & Hm & -> & Hmid & _).
  pose proof (period_balance_stored inputs overrides (Z.of_nat i + 1) Bi) as Hst.
  pose proof (period_balance_nonneg inputs overrides (Z.of_nat i + 1) Bi) as Hnn.
  destruct (period_fields inputs overrides (Z.of_nat i + 1) Bi)
    as (Hmo & _ & Hbase & Hint & Hpp & Hex & Htot & Hrb & Hsnd).
  cbv zeta in *.
  exists b. split; [done|]. split; [by rewrite Hbeq|].
  split; [done|]. split; [done|].
  split; [by rewrite Hint, Hbeq|].
  split; [rewrite Hpp, Hbase, Hint, Hmo; apply Q.min_compat; [reflexivity|by symmetry]|].
  split; [by rewrite Hex, Hbase, Hint|].
  split; [by rewrite Htot, Hbase|].
  split; [by rewrite Hst, Hsnd, Hbeq|].
  intros Hlen. rewrite Hst. by apply Hmid.
Qed.

(** A first payment that reaches the balance pays the loan off in one row. *)
Lemma first_row_payoff :
  (1 <= termMonths inputs)%Z ->
  1 # 100 < principal inputs ->
  principal inputs
    <= calculateMonthlyPayment (principal inputs) (annualRate inputs) (termMonths inputs)
       - principal inputs * (annualRate inputs / 100 / 12) + requestedExtra overrides 1 ->
  exists row : PaymentRow Q,
    schedule = [row] /\
    month row = 1%Z /\
    basePayment row
      = calculateMonthlyPayment (principal inputs) (annualRate inputs) (termMonths inputs) /\
    interestPaid row = principal inputs * (annualRate inputs / 100 / 12) /\
    principalPaid row == principal inputs /\
    extraPayment row == principal inputs - (basePayment row - interestPaid row) /\
    remainingBalance row == 0.
Proof.
  intros Hn HP Hreach.
  destruct (period_fields inputs overrides 1 (principal inputs))
    as (Hmo & _ & Hbase & Hint & Hpp & Hex & _ & Hrb & Hsnd).
  cbv zeta in *.
  assert (principalPaid (fst (period inputs overrides 1 (principal inputs)))
          == principal inputs) as Hpaid.
  { rewrite Hpp. by apply Q.min_r. }
  exists (fst (period inputs overrides 1 (principal inputs))).
  split.
  { rewrite schedule_rows, rows_unfold.
    replace (continues inputs 1 (principal inputs)) with true
      by (symmetry; by apply continues_true).
    replace (leb (snd (period inputs overrides 1 (principal inputs))) cent) with true; [done|].
    symmetry. apply leb_cent_true. rewrite Hsnd, Hpaid. lra. }
  split; [done|]. split; [done|]. split; [done|]. split; [done|].
  split; [by rewrite Hex, Hpaid, Hbase, Hint|].
  rewrite Hrb, Hpaid. apply Q.max_l. lra.
Qed.


(** The principal paid telescopes to the fall of the balance. *)
Lemma run_principal_sum (m : Z) (B : Q) (s : list (PaymentRow Q)) :
  run inputs overrides m B s ->
  exists final : Q,
    balanceAfter B s (length s) = Some final /\
    sumQ (map principalPaid s) == B - final.
Proof.
  induction 1 as [m B Hc|m B Hc Hb|m B s Hc Hb Hrun IH].
  - exists B. split; [done|]. simpl. ring.
  - exists (remainingBalance (fst (period inputs overrides m B))). split; [done|].
    rewrite period_balance_stored.
    destruct (period_fields inputs overrides m B) as (_ & _ & _ & _ & _ & _ & _ & _ & ->).
    simpl. ring.
  - destruct IH as (final' & Hf & Hsum).
    pose proof (period_balance_stored inputs overrides m B) as Hst.
    destruct (period_fields inputs overrides m B) as (_ & _ & _ & _ & _ & _ & _ & _ & Hsnd).
    destruct s as [|row' s].
    + exists (remainingBalance (fst (period inputs overrides m B))). split; [done|].
      simpl in Hf. injection Hf as <-. rewrite Hst, Hsnd. simpl. ring.
    + exists final'. split; [exact Hf|].
      cbn [map sumQ] in *. rewrite Hsum, Hsnd. ring.
Qed.

Lemma schedule_principal_sum :
  exists final : Q,
    balanceAfter (principal inputs) schedule (length schedule) = Some final /\
    sumQ (map principalPaid schedule) == principal inputs - final.
Proof. apply (run_principal_sum 1), rows_run. Qed.

(** A schedule shorter than the term ends on a balance of at most 0.01. *)
Lemma early_stop_balance (final : Q) :
  (Z.of_nat (length schedule) < termMonths inputs)%Z ->
  balanceAfter (principal inputs) schedule (length schedule) = Some final ->
  final <= 1 # 100.
Proof.
  intros Hlt Hf. destruct (length schedule) as [|n] eqn:Hlen.
  - injection Hf as <-. apply length_zero_iff_nil in Hlen.
    apply schedule_nil_iff in Hlen as [?|?]; [simpl in Hlt; lia|done].
  - simpl in Hf. destruct (schedule !! n) as [row|] eqn:Hrow; [|done]. injection Hf as <-.
    destruct (schedule_lookup inputs overrides n row Hrow)
      as (Bi & _ & _ & _ & _ & _ & -> & _ & Hend).
    rewrite period_balance_stored.
    destruct (Hend (eq_sym Hlen)) as [?|?]; [done|lia].
Qed.
End Rows.



(** ** Bounds of a power *)

Lemma roundDown_le (x : Q) : roundDown x <= x.
Proof.
  unfold roundDown. rewrite (Qmake_Qdiv (Qfloor (x * 1000000000000)) 1000000000000).
  apply Qle_shift_div_r; [reflexivity|]. apply Qfloor_le.
Qed.

Lemma roundDown_nonneg (x : Q) : 0 <= x -> 0 <= roundDown x.
Proof.
  intros Hx. unfold roundDown.
  assert (0 <= Qfloor (x * 1000000000000))%Z as H.
  { change 0%Z with (Qfloor 0). apply Qfloor_resp_le.
    apply Qmult_le_0_compat; [done|discriminate]. }
  unfold Qle. cbn [Qnum Qden]. rewrite Z.mul_1_r. exact H.
Qed.

Lemma roundUp_ge (x : Q) : x <= roundUp x.
Proof.
  unfold roundUp. rewrite (Qmake_Qdiv (Qceiling (x * 1000000000000)) 1000000000000).
  apply Qle_shift_div_l; [reflexivity|]. apply Qle_ceiling.
Qed.

Lemma Qmult_le_mono (a b c d : Q) : 0 <= a -> a <= b -> 0 <= c -> c <= d -> a * c <= b * d.
Proof.
  intros Ha Hab Hc Hcd.
  assert (0 <= (b - a) * c) by (apply Qmult_le_0_compat; lra).
  assert (0 <= b * (d - c)) by (apply Qmult_le_0_compat; lra).
  lra.
Qed.

Lemma powDown_le (q : Q) (p : positive) :
  0 <= q -> 0 <= powDown q p /\ powDown q p <= q ^ Zpos p.
Proof.
  intros Hq. induction p as [p [IH0 IH]|p [IH0 IH]|]; cbn [powDown].
  - change (q ^ Z.pos p~1) with (q * (q ^ Zpos p * q ^ Zpos p)).
    assert (0 <= powDown q p * powDown q p) by (by apply Qmult_le_0_compat).
    split.
    + apply roundDown_nonneg. by apply Qmult_le_0_compat.
    + eapply Qle_trans; [apply roundDown_le|].
      apply Qmult_le_mono; [done|lra|done|]. by apply Qmult_le_mono.
  - change (q ^ Z.pos p~0) with (q ^ Zpos p * q ^ Zpos p). split.
    + apply roundDown_nonneg. by apply Qmult_le_0_compat.
    + eapply Qle_trans; [apply roundDown_le|]. by apply Qmult_le_mono.
  - split; [done|]. simpl. lra.
Qed.

Lemma powUp_ge (q : Q) (p : positive) : 0 <= q -> q ^ Zpos p <= powUp q p.
Proof.
  intros Hq.
  assert (forall p, 0 <= q ^ Zpos p) as Hpos by (intros p'; by apply Qpower_0_le).
  induction p as [p IH|p IH|]; cbn [powUp].
  - change (q ^ Z.pos p~1) with (q * (q ^ Zpos p * q ^ Zpos p)).
    eapply Qle_trans; [|apply roundUp_ge]. specialize (Hpos p).
    apply Qmult_le_mono; [done|lra| |].
    + by apply Qmult_le_0_compat.
    + by apply Qmult_le_mono.
  - change (q ^ Z.pos p~0) with (q ^ Zpos p * q ^ Zpos p).
    eapply Qle_trans; [|apply roundUp_ge]. specialize (Hpos p). by apply Qmult_le_mono.
  - simpl. lra.
Qed.

(** The growth factor of the 300000 loan over its term, [(1 + r)^360] for
    [r = 6.5 / 100 / 12]. *)
Lemma growth_300k :
  6.99179 <= (1 + 6.5 / 100 / 12) ^ 360 /\ (1 + 6.5 / 100 / 12) ^ 360 <= 6.99180.
Proof.
  assert (1 + 6.5 / 100 / 12 == 2413 # 2400) as -> by reflexivity.
  destruct (powDown_le (2413 # 2400) 360) as [_ Hlo]; [discriminate|].
  pose proof (powUp_ge (2413 # 2400) 360) as Hhi.
  split.
  - eapply Qle_trans; [|exact Hlo]. apply Qle_bool_iff. vm_compute. reflexivity.
  - eapply Qle_trans; [apply Hhi; discriminate|]. apply Qle_bool_iff. vm_compute. reflexivity.
Qed.

(** The payment of the 300000 loan, to the cent. *)
Lemma payment_300k :
  1896.19 <= calculateMonthlyPayment 300000 6.5 360 /\
  calculateMonthlyPayment 300000 6.5 360 <= 1896.21.
Proof.
  destruct (payment_cases 300000 6.5 360) as [[Hz _]|[_ ->]]; [discriminate Hz|].
  destruct growth_300k as [Hlo Hhi]. revert Hlo Hhi.
  generalize ((1 + 6.5 / 100 / 12) ^ 360). intros X Hlo Hhi.
  assert (6.5 / 100 / 12 == 13 # 2400) as -> by reflexivity.
  split.
  - apply Qle_shift_div_l; lra.
  - apply Qle_shift_div_r; lra.
Qed.

(** C3. In every period the principal applied is the smaller of
    [basePayment - interest + requested extra] and the balance before the
    payment, and the stored [extraPayment] is the applied principal minus the
    unclamped base principal portion [basePayment - interest].  For the
    300000 / 6.5% / 360-month loan with a lump sum of 400000 in month 1, the
    schedule is the single row of month 1, its [remainingBalance] is 0, and
    its [extraPayment] is the balance before the payment minus the base
    principal portion, which is less than 400000. *)
Theorem C3_clamped_principal :
  (forall (inputs : MortgageInputs Q) (overrides : option (ScenarioOverride Q))
          (i : nat) (row : PaymentRow Q),
     generateAmortizationSchedule inputs overrides !! i = Some row ->
     exists before : Q,
       balanceAfter (principal inputs) (generateAmortizationSchedule inputs overrides) i
         = Some before /\
       month row = (Z.of_nat i + 1)%Z /\
       basePayment row
         = calculateMonthlyPayment (principal inputs) (annualRate inputs) (termMonths inputs) /\
       interestPaid row == before * (annualRate inputs / 100 / 12) /\
       principalPaid row
         == Qmin (basePayment row - interestPaid row + requestedExtra overrides (month row))
                 before /\
       extraPayment row == principalPaid row - (basePayment row - interestPaid row)) /\
  (exists row : PaymentRow Q,
     generateAmortizationSchedule loan300k (Some lump400k) = [row] /\
     month row = 1%Z /\
     remainingBalance row == 0 /\
     basePayment row - interestPaid row
       == calculateMonthlyPayment 300000 6.5 360 - 300000 * (6.5 / 100 / 12) /\
     extraPayment row == 300000 - (basePayment row - interestPaid row) /\
     extraPayment row < 400000).
Proof.
  split.
  - intros inputs overrides i row Hi.
    destruct (row_facts inputs overrides i row Hi)
      as (before & Hb & _ & Hm & Hbase & Hint & Hpp & Hex & _).
    by exists before.
  - destruct (first_row_payoff loan300k (Some lump400k))
      as (row & Hs & Hmo & Hbase & Hint & Hpaid & Hex & Hrb).
    + done.
    + reflexivity.
    + change (300000 <= calculateMonthlyPayment 300000 6.5 360
                        - 300000 * (6.5 / 100 / 12) + (0 + 400000)).
      pose proof payment_300k as [Hlo _]. revert Hlo.
      generalize (calculateMonthlyPayment 300000 6.5 360). intros p Hlo.
      assert (6.5 / 100 / 12 == 13 # 2400) as -> by reflexivity. lra.
    + exists row. split; [done|]. split; [done|]. split; [done|].
      rewrite Hex, Hbase, Hint.
      change (principal loan300k) with 300000.
      change (annualRate loan300k) with 6.5.
      change (termMonths loan300k) with 360%Z.
      split; [reflexivity|]. split; [reflexivity|].
      pose proof payment_300k as [Hlo _]. revert Hlo.
      generalize (calculateMonthlyPayment 300000 6.5 360). intros p Hlo.
      assert (6.5 / 100 / 12 == 13 # 2400) as -> by reflexivity. lra.
Qed.

(** C10 (as the code has it). On every row but the last, the payment is not
    clamped: in exact arithmetic [principalPaid] is
    [basePayment - interest + requested extra] and the stored [extraPayment]
    is the extra requested for that month, [extraMonthlyPrincipal] plus the
    month's lump sum, each 0 by default.  In binary64 arithmetic the stored
    [extraPayment] of any row is the rounded difference
    [principalPaid - (basePayment - interestPaid)], whatever [Math.pow] is. *)
Theorem C10_extra_unclamped_before_last (inputs : MortgageInputs Q)
    (overrides : option (ScenarioOverride Q)) (i : nat) (row : PaymentRow Q) :
  generateAmortizationSchedule inputs overrides !! i = Some row ->
  (S i < length (generateAmortizationSchedule inputs overrides))%nat ->
  month row = (Z.of_nat i + 1)%Z /\
  requestedExtra overrides (month row)
    = from_option extraMonthlyPrincipal 0 overrides
      + default 0 (overrides ≫= fun o => lumpSumPayments o !! month row) /\
  principalPaid row
    == basePayment row - interestPaid row + requestedExtra overrides (month row) /\
  extraPayment row == requestedExtra overrides (month row) /\
  (forall (Math_pow : float -> float -> float) (inputs64 : MortgageInputs float)
          (overrides64 : option (ScenarioOverride float)) (j : nat) (row64 : PaymentRow float),
     @generateAmortizationSchedule float (F64_number Math_pow) inputs64 overrides64 !! j
       = Some row64 ->
     extraPayment row64
       = PrimFloat.sub (principalPaid row64)
           (PrimFloat.sub (basePayment row64) (interestPaid row64))).
Proof.
  intros Hi Hlen.
  destruct (row_facts inputs overrides i row Hi)
    as (before & Hb & _ & Hm & _ & _ & Hpp & Hex & _ & Hrb & Hmid).
  specialize (Hmid Hlen).
  split; [done|]. split; [by destruct overrides|].
  assert (principalPaid row
          == basePayment row - interestPaid row + requestedExtra overrides (month row))
    as Hunclamped.
  { destruct (Q.min_spec
      (basePayment row - interestPaid row + requestedExtra overrides (month row)) before)
      as [[_ Hmin]|[_ Hmin]]; rewrite Hmin in Hpp; [done|].
    rewrite Hpp in Hrb. lra. }
  split; [done|]. split; [rewrite Hex, Hunclamped; ring|].
  intros Math_pow inputs64 overrides64 j row64.
  apply (@schedule_row_extra float (F64_number Math_pow)).
Qed.

Lemma C10_extra_unclamped_before_last_witness :
  exists row : PaymentRow Q,
    generateAmortizationSchedule sampleLoan (Some sampleOverride) !! 1%nat = Some row /\
    (2 < length (generateAmortizationSchedule sampleLoan (Some sampleOverride)))%nat /\
    month row = 2%Z /\
    requestedExtra (Some sampleOverride) (month row)
      = from_option extraMonthlyPrincipal 0 (Some sampleOverride)
        + default 0 (Some sampleOverride ≫= fun o => lumpSumPayments o !! month row) /\
    principalPaid row
      == basePayment row - interestPaid row + requestedExtra (Some sampleOverride) (month row) /\
    extraPayment row == requestedExtra (Some sampleOverride) (month row) /\
    (forall (Math_pow : float -> float -> float) (inputs64 : MortgageInputs float)
            (overrides64 : option (ScenarioOverride float)) (j : nat) (row64 : PaymentRow float),
       @generateAmortizationSchedule float (F64_number Math_pow) inputs64 overrides64 !! j
         = Some row64 ->
       extraPayment row64
         = PrimFloat.sub (principalPaid row64)
             (PrimFloat.sub (basePayment row64) (interestPaid row64))).
Proof.
  eexists.
  assert (generateAmortizationSchedule sampleLoan (Some sampleOverride) !! 1%nat = Some _) as Hrow
    by (vm_compute; reflexivity).
  assert (2 < length (generateAmortizationSchedule sampleLoan (Some sampleOverride)))%nat as Hlen
    by (vm_compute; lia).
  split; [exact Hrow|]. split; [exact Hlen|].
  exact (C10_extra_unclamped_before_last sampleLoan (Some sampleOverride) 1 _ Hrow Hlen).
Defined.

(** ** Length of a schedule *)



(** ** The base schedule *)

Section BaseSchedule.
Variable inputs : MortgageInputs Q.
Hypothesis principal_nonneg : 0 <= principal inputs.
Hypothesis rate_nonneg_ : 0 <= annualRate inputs.
Hypothesis term_pos : (1 <= termMonths inputs)%Z.
Local Open Scope Q_scope.

Abbreviation base := (generateAmortizationSchedule inputs None).
Abbreviation unclamped :=
  (amortized (principal inputs) (1 + annualRate inputs / 100 / 12)
     (calculateMonthlyPayment (principal inputs) (annualRate inputs) (termMonths inputs))).

Lemma base_length : (length base <= Z.to_nat (termMonths inputs))%nat.
Proof.
  pose proof (run_length inputs None 1 (principal inputs) base (rows_run _ _ _ _)). lia.
Qed.

(** With no override nothing is clamped before the end of the term: the
    balances of the schedule are the unclamped ones. *)
Lemma base_balance (i : nat) (b : Q) :
  balanceAfter (principal inputs) base i = Some b -> b == unclamped i.
Proof.
  revert b. induction i as [|i IH]; intros b Hb.
  - injection Hb as <-. reflexivity.
  - simpl in Hb. destruct (base !! i) as [row|] eqn:Hrow; [|done]. injection Hb as <-.
    pose proof (lookup_lt_Some _ _ _ Hrow) as Hlen. pose proof base_length as Hmax.
    destruct (row_facts inputs None i row Hrow)
      as (before & Hbefore & _ & _ & Hbase & Hint & Hpp & _ & _ & Hrb & _).
    specialize (IH before Hbefore).
    destruct (amortized_bounds (principal inputs) (annualRate inputs) (termMonths inputs)
                (Z.to_nat (termMonths inputs) - S i) (S i)
                principal_nonneg rate_nonneg_ term_pos ltac:(lia)) as (Hnn & _).
    cbn [amortized] in *.
    assert (requestedExtra None (month row) == 0) as Hex by reflexivity.
    rewrite Hrb, Hpp, Hex, Hint, Hbase, IH. revert Hnn.
    generalize (unclamped i). intros u.
    generalize
      (calculateMonthlyPayment (principal inputs) (annualRate inputs) (termMonths inputs)),
      (annualRate inputs / 100 / 12).
    intros p r Hnn.
    destruct (Q.min_spec (p - u * r + 0) u) as [[Hlt ->]|[Hle ->]]; lra.
Qed.

(** The base schedule runs the whole term when the discounted payment, the
    balance before the last payment, exceeds 0.01. *)
Lemma base_full_term :
  (1 # 100) * (1 + annualRate inputs / 100 / 12)
    < calculateMonthlyPayment (principal inputs) (annualRate inputs) (termMonths inputs) ->
  Z.of_nat (length base) = termMonths inputs.
Proof.
  intros Hpay. pose proof base_length as Hmax.
  destruct (Z_lt_le_dec (Z.of_nat (length base)) (termMonths inputs)) as [Hlt|]; [exfalso|lia].
  destruct (schedule_principal_sum inputs None) as (final & Hf & _).
  pose proof (early_stop_balance inputs None final Hlt Hf) as Hsmall.
  apply base_balance in Hf.
  destruct (amortized_bounds (principal inputs) (annualRate inputs) (termMonths inputs)
              (Z.to_nat (termMonths inputs) - length base) (length base)
              principal_nonneg rate_nonneg_ term_pos ltac:(lia)) as (_ & _ & Hge).
  specialize (Hge ltac:(lia)). rewrite <- Hf in Hge.
  pose proof (rate_nonneg _ rate_nonneg_) as Hr. revert Hpay Hge Hr.
  generalize
    (calculateMonthlyPayment (principal inputs) (annualRate inputs) (termMonths inputs)),
    (annualRate inputs / 100 / 12).
  intros p r Hpay Hge Hr.
  assert (0 <= ((1 # 100) - final) * (1 + r)) by (apply Qmult_le_0_compat; lra). lra.
Qed.

(** A base schedule that runs the whole term ends on a zero balance. *)
Lemma base_final_zero (final : Q) :
  Z.of_nat (length base) = termMonths inputs ->
  balanceAfter (principal inputs) base (length base) = Some final ->
  final == 0.
Proof.
  intros Hlen Hf. apply base_balance in Hf. rewrite Hf.
  replace (length base) with (Z.to_nat (termMonths inputs)) by lia.
  by apply amortized_end.
Qed.

Lemma base_full_term_last (n : nat) :
  termMonths inputs = Z.of_nat (S n) ->
  (1 # 100) * (1 + annualRate inputs / 100 / 12)
    < calculateMonthlyPayment (principal inputs) (annualRate inputs) (termMonths inputs) ->
  length base = S n /\
  exists row : PaymentRow Q, base !! n = Some row /\ remainingBalance row == 0.
Proof.
  intros Hn Hpay. pose proof (base_full_term Hpay) as Hlen.
  split; [lia|].
  destruct (lookup_lt_is_Some_2 base n) as [row Hrow]; [lia|].
  exists row. split; [done|].
  apply base_final_zero; [done|].
  replace (length base) with (S n) by lia.
  simpl. by rewrite Hrow.
Qed.
End BaseSchedule.




(** C9. For 300000 at 6.5% over 360 months the payment is 1896.20 to within
    0.01, and the base schedule has exactly 360 rows, the last one with a
    [remainingBalance] of 0. *)
Theorem C9_loan300k_base :
  Qabs (calculateMonthlyPayment 300000 6.5 360 - 1896.20) <= 0.01 /\
  length (generateAmortizationSchedule loan300k None) = 360%nat /\
  exists row : PaymentRow Q,
    generateAmortizationSchedule loan300k None !! 359%nat = Some row /\
    remainingBalance row == 0.
Proof.
  split.
  - pose proof payment_300k as [Hlo Hhi]. apply Qabs_Qle_condition. split; lra.
  - apply (base_full_term_last loan300k);
      [discriminate|discriminate|discriminate|reflexivity|].
    change (0.01 * (1 + 6.5 / 100 / 12) < calculateMonthlyPayment 300000 6.5 360).
    pose proof payment_300k as [Hlo _].
    assert (6.5 / 100 / 12 == 13 # 2400) as -> by reflexivity. lra.
Qed.

(** ** More extra principal, sooner payoff *)

Section Monotone.
Variable inputs : MortgageInputs Q.
Variables more less : option (ScenarioOverride Q).
Hypothesis rate_nonneg_ : 0 <= annualRate inputs.
Hypothesis more_extra : forall m : Z, requestedExtra less m <= requestedExtra more m.
Local Open Scope Q_scope.

(** Every row of a run carries interest on a positive balance. *)
Lemma run_interest_nonneg (ov : option (ScenarioOverride Q)) (m : Z) (B : Q)
    (s : list (PaymentRow Q)) :
  run inputs ov m B s -> 0 <= sumQ (map interestPaid s).
Proof.
  pose proof (rate_nonneg _ rate_nonneg_) as Hr.
  induction 1 as [m B Hc|m B Hc Hb|m B s Hc Hb Hrun IH]; cbn [map sumQ].
  - lra.
  - apply continues_true in Hc as [_ HB].
    destruct (period_fields inputs ov m B) as (_ & _ & _ & -> & _).
    assert (0 <= B * (annualRate inputs / 100 / 12)) by (apply Qmult_le_0_compat; lra). lra.
  - apply continues_true in Hc as [_ HB].
    destruct (period_fields inputs ov m B) as (_ & _ & _ & -> & _).
    assert (0 <= B * (annualRate inputs / 100 / 12)) by (apply Qmult_le_0_compat; lra). lra.
Qed.

(** One period: from a lower balance and with more extra, the interest is
    lower and so is the balance left. *)
Lemma period_monotone (m : Z) (B' B : Q) :
  B' <= B ->
  interestPaid (fst (period inputs more m B')) <= interestPaid (fst (period inputs less m B)) /\
  snd (period inputs more m B') <= snd (period inputs less m B).
Proof.
  intros HB. pose proof (rate_nonneg _ rate_nonneg_) as Hr.
  destruct (period_fields inputs more m B') as (_ & _ & _ & -> & Hpp' & _ & _ & _ & ->).
  destruct (period_fields inputs less m B) as (_ & _ & _ & -> & Hpp & _ & _ & _ & ->).
  rewrite Hpp', Hpp. pose proof (more_extra m) as He. revert Hr He.
  generalize (annualRate inputs / 100 / 12), (requestedExtra less m), (requestedExtra more m),
    (calculateMonthlyPayment (principal inputs) (annualRate inputs) (termMonths inputs)).
  intros r e e' p Hr He.
  assert (0 <= (B - B') * r) by (apply Qmult_le_0_compat; lra).
  split; [lra|].
  destruct (Q.min_spec (p - B' * r + e') B') as [[? ->]|[? ->]];
    destruct (Q.min_spec (p - B * r + e) B) as [[? ->]|[? ->]]; lra.
Qed.

(** Two runs in step: the one with more extra, entered on a lower balance,
    has no more rows and no more interest. *)
Lemma rows_monotone (n : nat) :
  forall (m : Z) (B' B : Q),
    Z.to_nat (termMonths inputs + 1 - m) = n -> B' <= B ->
    (length (rows inputs more m B') <= length (rows inputs less m B))%nat /\
    sumQ (map interestPaid (rows inputs more m B'))
      <= sumQ (map interestPaid (rows inputs less m B)).
Proof.
  induction n as [n IH] using lt_wf_ind. intros m B' B Hn HB.
  pose proof (run_interest_nonneg less m B _ (rows_run inputs less m B)) as Hnn.
  rewrite (rows_unfold inputs more m B').
  destruct (continues inputs m B') eqn:Hc'; [|split; [simpl; lia|exact Hnn]].
  apply continues_true in Hc' as [Hm HB'].
  rewrite (rows_unfold inputs less m B) in *.
  replace (continues inputs m B) with true in *
    by (symmetry; apply continues_true; split; [done|lra]).
  destruct (period_monotone m B' B HB) as [Hint Hrb].
  pose proof (run_interest_nonneg less (m + 1) (snd (period inputs less m B)) _
                (rows_run inputs less _ _)) as Hrest.
  destruct (leb (snd (period inputs more m B')) cent) eqn:Hb'.
  - split; [cbn [length]; lia|]. cbn [map sumQ] in *.
    destruct (leb (snd (period inputs less m B)) cent); cbn [map sumQ] in *; lra.
  - apply leb_cent_false in Hb'.
    replace (leb (snd (period inputs less m B)) cent) with false
      by (symmetry; apply leb_cent_false; lra).
    destruct (IH (Z.to_nat (termMonths inputs + 1 - (m + 1))) ltac:(lia) (m + 1)%Z
                (snd (period inputs more m B')) (snd (period inputs less m B)) eq_refl Hrb)
      as [Hlen Hsum].
    split; [cbn [length]; lia|]. cbn [map sumQ]. lra.
Qed.

Lemma schedule_monotone :
  (length (generateAmortizationSchedule inputs more)
   <= length (generateAmortizationSchedule inputs less))%nat /\
  sumQ (map interestPaid (generateAmortizationSchedule inputs more))
    <= sumQ (map interestPaid (generateAmortizationSchedule inputs less)).
Proof. apply (rows_monotone _ 1 _ _ eq_refl). lra. Qed.
End Monotone.

Lemma requestedExtra_nonneg (override : ScenarioOverride Q) (m : Z) :
  0 <= extraMonthlyPrincipal override ->
  (forall (k : Z) (x : Q), lumpSumPayments override !! k = Some x -> 0 <= x) ->
  requestedExtra None m <= requestedExtra (Some override) m.
Proof.
  intros Hmonthly Hlumps. unfold requestedExtra, requestedMonthly, requestedLumpSum.
  cbn [add ofZ Q_number]. change (inject_Z 0) with 0.
  destruct (lumpSumPayments override !! m) as [x|] eqn:Hx; simpl.
  - specialize (Hlumps m x Hx). lra.
  - lra.
Qed.

(** C5. For a loan with a non-negative rate, a scenario override whose extra
    monthly principal and lump sums are not negative (in particular one with
    [extraMonthlyPrincipal > 0] or with a positive lump sum) yields a schedule
    whose [monthsToPayoff] is at most that of the base schedule and whose
    [totalInterestPaid] is at most that of the base schedule. *)
Theorem C5_extra_principal_monotone (inputs : MortgageInputs Q) (override : ScenarioOverride Q)
    (baseline baseline' : option (list (PaymentRow Q))) :
  0 <= annualRate inputs ->
  0 <= extraMonthlyPrincipal override ->
  (forall (k : Z) (x : Q), lumpSumPayments override !! k = Some x -> 0 <= x) ->
  (monthsToPayoff
     (calculateSummary (generateAmortizationSchedule inputs (Some override)) baseline)
   <= monthsToPayoff
        (calculateSummary (generateAmortizationSchedule inputs None) baseline'))%Z /\
  totalInterestPaid
    (calculateSummary (generateAmortizationSchedule inputs (Some override)) baseline)
    <= totalInterestPaid
         (calculateSummary (generateAmortizationSchedule inputs None) baseline').
Proof.
  intros HR Hmonthly Hlumps.
  destruct (schedule_monotone inputs (Some override) None HR
              (fun m => requestedExtra_nonneg override m Hmonthly Hlumps)) as [Hlen Hsum].
  split.
  - destruct baseline, baseline'; simpl; lia.
  - assert (forall s b, totalInterestPaid (calculateSummary s b) == sumQ (map interestPaid s))
      as Htotal by (intros s [b|]; apply reduce_sum_sumQ).
    by rewrite !Htotal.
Qed.

Lemma C5_extra_principal_monotone_witness :
  (monthsToPayoff
     (calculateSummary (generateAmortizationSchedule sampleLoan (Some sampleOverride)) None)
   <= monthsToPayoff (calculateSummary (generateAmortizationSchedule sampleLoan None) None))%Z /\
  totalInterestPaid
    (calculateSummary (generateAmortizationSchedule sampleLoan (Some sampleOverride)) None)
    <= totalInterestPaid (calculateSummary (generateAmortizationSchedule sampleLoan None) None).
Proof.
  apply (C5_extra_principal_monotone sampleLoan sampleOverride None None).
  - discriminate.
  - discriminate.
  - intros k x Hx. unfold sampleOverride in Hx. cbn [lumpSumPayments] in Hx.
    apply lookup_singleton_Some in Hx as [_ <-]. discriminate.
Defined.

(** ** Binary64 arithmetic *)

(** The two small loans behave in binary64 as they do in exact arithmetic:
    the half-cent loan has no row, and the three-cent loan stops after three
    rows on a balance of 0.0075. *)
Lemma halfCentLoan_binary64 :
  for_any_pow
    (fun Math_pow =>
       @generateAmortizationSchedule float (F64_number Math_pow) halfCentLoan64 None)
    [].
Proof. intros Math_pow. vm_compute. reflexivity. Qed.

Lemma threeCentLoan_binary64 :
  for_any_pow
    (fun Math_pow =>
       map (fun row => (month row, principalPaid row, remainingBalance row))
         (@generateAmortizationSchedule float (F64_number Math_pow) threeCentLoan64 None))
    [(1%Z, 0x1.eb851eb851eb8p-8%float, 0x1.70a3d70a3d70ap-6%float);
     (2%Z, 0x1.eb851eb851eb8p-8%float, 0x1.eb851eb851eb8p-7%float);
     (3%Z, 0x1.eb851eb851eb8p-8%float, 0x1.eb851eb851eb8p-8%float)].
Proof. intros Math_pow. vm_compute. reflexivity. Qed.

(** C8, as stated, fails on the numbers the code computes with: the payment
    of 130000 at 0% over 360 months is 361.1111111111111, and 360 times it is
    129999.99999999999, below the principal. *)
Lemma C8_binary64_product_below_principal :
  for_any_pow
    (fun Math_pow =>
       let payment :=
         @calculateMonthlyPayment float (F64_number Math_pow) 130000%float 0%float 360 in
       (payment, PrimFloat.mul payment 360%float,
        PrimFloat.ltb (PrimFloat.mul payment 360%float) 130000%float))
    (0x1.691c71c71c71cp+8%float, 0x1.fbcffffffffffp+16%float, true).
Proof. intros Math_pow. vm_compute. reflexivity. Qed.

(** C10, as stated, fails on the numbers the code computes with: with 200
    extra every month on the interest-free loan, the first of 291 rows stores
    200.00000000000011 as [extraPayment], not the 200 requested. *)
Lemma C10_binary64_extra_not_exact :
  for_any_pow
    (fun Math_pow =>
       let s := @generateAmortizationSchedule float (F64_number Math_pow)
                  interestFree300k (Some extra200) in
       let requested := @requestedExtra float (F64_number Math_pow) (Some extra200) 1 in
       (length s, month <$> s !! 0%nat, extraPayment <$> s !! 0%nat, requested,
        (fun row => PrimFloat.eqb (extraPayment row) requested) <$> s !! 0%nat))
    (291%nat, Some 1%Z, Some 0x1.9000000000004p+7%float, 200%float, Some false).
Proof. intros Math_pow. vm_compute. reflexivity. Qed.

(** ** Rows, in any arithmetic *)

(** The statements of this section hold for the exact and for the binary64
    reading of the code alike: they concern the shape of the schedule, not
    its numbers. *)

Section AnyArithmetic.
Context {num : Type} {arith : Number num}.
Variable inputs : MortgageInputs num.
Variable overrides : option (ScenarioOverride num).
Local Open Scope num_scope.

Lemma period_shape (m : Z) (b : num) :
  let row := fst (period inputs overrides m b) in
  month row = m /\
  date row = (startDate inputs + (m - 1))%Z /\
  basePayment row
    = calculateMonthlyPayment (principal inputs) (annualRate inputs) (termMonths inputs) /\
  totalPayment row = basePayment row + extraPayment row + extraMonthlyPayment inputs /\
  interestPaid row = b * (annualRate inputs / ofZ 100 / ofZ 12) /\
  principalPaid row = min (basePayment row - interestPaid row + requestedExtra overrides m) b /\
  remainingBalance row = max (ofZ 0) (b - principalPaid row) /\
  snd (period inputs overrides m b) = b - principalPaid row.
Proof. with_strategy transparent [period] (repeat split). Qed.

Lemma run_numbering (m : Z) (b : num) (s : list (PaymentRow num)) :
  run inputs overrides m b s ->
  month <$> s = seqZ m (Z.of_nat (length s)) /\
  Forall (fun row =>
    basePayment row
      = calculateMonthlyPayment (principal inputs) (annualRate inputs) (termMonths inputs) /\
    totalPayment row = basePayment row + extraPayment row + extraMonthlyPayment inputs) s.
Proof.
  induction 1 as [m b Hc|m b Hc Hb|m b s Hc Hb Hrun IH].
  - done.
  - destruct (period_shape m b) as (Hm & _ & Hbase & Htot & _).
    cbn [fmap list_fmap length]. rewrite Hm.
    split; [done|]. by repeat constructor.
  - destruct (period_shape m b) as (Hm & _ & Hbase & Htot & _).
    destruct IH as (IHm & IHf).
    cbn [fmap list_fmap length]. fold (fmap (M:=list) (@month num)).
    rewrite Hm, IHm, Nat2Z.inj_succ, (seqZ_cons m) by lia.
    replace (Z.pred (Z.succ (Z.of_nat (length s)))) with (Z.of_nat (length s)) by lia.
    replace (Z.succ m) with (m + 1)%Z by lia.
    split; [done|]. by constructor.
Qed.
End AnyArithmetic.

(** X1. In any arithmetic, binary64 included, a schedule has at most
    [termMonths] rows; its rows carry the months 1, 2, 3, ... without a gap;
    every row has the same [basePayment], the result of
    [calculateMonthlyPayment], and its [totalPayment] is
    [basePayment + extraPayment + extraMonthlyPayment], added in that
    order. *)
Theorem X1_rows_numbered {num : Type} {arith : Number num} (inputs : MortgageInputs num)
    (overrides : option (ScenarioOverride num)) :
  let s := generateAmortizationSchedule inputs overrides in
  (Z.of_nat (length s) <= Z.max 0 (termMonths inputs))%Z /\
  month <$> s = seqZ 1 (Z.of_nat (length s)) /\
  Forall (fun row =>
    basePayment row
      = calculateMonthlyPayment (principal inputs) (annualRate inputs) (termMonths inputs) /\
    totalPayment row
      = add (add (basePayment row) (extraPayment row)) (extraMonthlyPayment inputs)) s.
Proof.
  cbv zeta.
  pose proof (rows_run inputs overrides 1 (principal inputs)) as Hrun.
  rewrite <- schedule_rows in Hrun.
  split.
  - apply run_length in Hrun. lia.
  - by apply run_numbering in Hrun.
Qed.

Section AddOn.
Context {num : Type} {arith : Number num}.
Variables (P R : num) (N D : Z) (a a' : num).
Variable overrides : option (ScenarioOverride num).
Local Open Scope num_scope.

Abbreviation withAddOn x :=
  {| principal := P; annualRate := R; termMonths := N; startDate := D;
     extraMonthlyPayment := x |}.
Abbreviation retotal :=
  (withTotalPayment (fun row => basePayment row + extraPayment row + a')).

Lemma rows_addOn (n : nat) :
  forall (m : Z) (b : num),
    Z.to_nat (N + 1 - m) = n ->
    rows (withAddOn a') overrides m b = map retotal (rows (withAddOn a) overrides m b).
Proof.
  induction n as [n IH] using lt_wf_ind. intros m b Hn.
  rewrite (rows_unfold (withAddOn a') overrides m b), (rows_unfold (withAddOn a) overrides m b).
  change (continues (withAddOn a') m b) with (continues (withAddOn a) m b).
  assert (period (withAddOn a') overrides m b
          = (retotal (fst (period (withAddOn a) overrides m b)),
             snd (period (withAddOn a) overrides m b)))
    as -> by (with_strategy transparent [period] reflexivity).
  cbn [fst snd].
  destruct (continues (withAddOn a) m b) eqn:Hc; [|done].
  apply andb_true_iff in Hc as [Hm _]. apply Z.leb_le in Hm. cbn [termMonths] in Hm.
  destruct (snd (period (withAddOn a) overrides m b) <=? cent); [done|].
  cbn [map]. f_equal. apply (IH (Z.to_nat (N + 1 - (m + 1)))); [lia|done].
Qed.
End AddOn.

(** X2. The fixed monthly add-on (taxes, insurance) does not enter the
    amortization: with another [extraMonthlyPayment], the schedule has the
    same rows but for their [totalPayment], which is
    [basePayment + extraPayment] plus the new add-on.  This holds in any
    arithmetic. *)
Theorem X2_addOn_only_changes_totalPayment {num : Type} {arith : Number num}
    (P R : num) (N D : Z) (a a' : num) (overrides : option (ScenarioOverride num)) :
  generateAmortizationSchedule
    {| principal := P; annualRate := R; termMonths := N; startDate := D;
       extraMonthlyPayment := a' |} overrides
  = map (withTotalPayment (fun row => add (add (basePayment row) (extraPayment row)) a'))
      (generateAmortizationSchedule
         {| principal := P; annualRate := R; termMonths := N; startDate := D;
            extraMonthlyPayment := a |} overrides).
Proof. rewrite !schedule_rows. by apply (rows_addOn P R N D a a' overrides _ 1 P eq_refl). Qed.

Section Locality.
Context {num : Type} {arith : Number num}.
Variable inputs : MortgageInputs num.
Variables overrides overrides' : option (ScenarioOverride num).

Lemma period_same_extra (m : Z) (b : num) :
  requestedExtra overrides m = requestedExtra overrides' m ->
  period inputs overrides m b = period inputs overrides' m b.
Proof.
  intros He. unfold requestedExtra in He.
  with_strategy transparent [period] (unfold period). cbv zeta. by rewrite He.
Qed.

(** Two runs agree when the overrides request the same extra in every month
    of the term. *)
Lemma rows_locality (n : nat) :
  forall (m : Z) (b : num),
    (forall m' : Z, (m <= m' <= termMonths inputs)%Z ->
       requestedExtra overrides m' = requestedExtra overrides' m') ->
    Z.to_nat (termMonths inputs + 1 - m) = n ->
    rows inputs overrides m b = rows inputs overrides' m b.
Proof.
  induction n as [n IH] using lt_wf_ind. intros m b Hsame Hn.
  rewrite (rows_unfold inputs overrides m b), (rows_unfold inputs overrides' m b).
  destruct (continues inputs m b) eqn:Hc; [|done].
  apply andb_true_iff in Hc as [Hm _]. apply Z.leb_le in Hm.
  rewrite (period_same_extra m b) by (apply Hsame; lia).
  destruct (leb (snd (period inputs overrides' m b)) cent); [done|].
  f_equal. apply (IH (Z.to_nat (termMonths inputs + 1 - (m + 1)))); [lia| |done].
  intros m' Hm'. apply Hsame. lia.
Qed.

Lemma schedule_locality :
  (forall m : Z, (1 <= m <= termMonths inputs)%Z ->
     requestedExtra overrides m = requestedExtra overrides' m) ->
  generateAmortizationSchedule inputs overrides = generateAmortizationSchedule inputs overrides'.
Proof. intros Hsame. rewrite !schedule_rows. by apply (rows_locality _ 1 _ Hsame eq_refl). Qed.

(** Two runs agree on their first [j] rows when the overrides request the
    same extra in the [j] months from [m] on. *)
Lemma rows_prefix (j : nat) :
  forall (m : Z) (b : num),
    (forall m' : Z, (m <= m' < m + Z.of_nat j)%Z ->
       requestedExtra overrides m' = requestedExtra overrides' m') ->
    take j (rows inputs overrides m b) = take j (rows inputs overrides' m b).
Proof.
  induction j as [|j IH]; intros m b Hsame; [done|].
  rewrite (rows_unfold inputs overrides m b), (rows_unfold inputs overrides' m b).
  destruct (continues inputs m b); [|done].
  rewrite (period_same_extra m b) by (apply Hsame; lia).
  destruct (leb (snd (period inputs overrides' m b)) cent); [done|].
  cbn [take]. f_equal. apply IH. intros m' Hm'. apply Hsame. lia.
Qed.
End Locality.

(** X3. A lump sum keyed to a month outside [1 .. termMonths] is never
    applied: the schedule is that of the override without these entries.
    This holds in any arithmetic. *)
Theorem X3_lump_sums_outside_term_ignored {num : Type} {arith : Number num}
    (inputs : MortgageInputs num) (override : ScenarioOverride num) :
  generateAmortizationSchedule inputs (Some override)
  = generateAmortizationSchedule inputs
      (Some {| extraMonthlyPrincipal := extraMonthlyPrincipal override;
               lumpSumPayments :=
                 base.filter (fun entry => (1 <= entry.1 <= termMonths inputs)%Z)
                   (lumpSumPayments override) |}).
Proof.
  apply schedule_locality. intros m Hm.
  unfold requestedExtra, requestedMonthly, requestedLumpSum.
  cbn [extraMonthlyPrincipal lumpSumPayments]. f_equal. f_equal.
  destruct (lumpSumPayments override !! m) as [x|] eqn:Hx.
  - symmetry. by apply map_lookup_filter_Some.
  - symmetry. apply map_lookup_filter_None. by left.
Qed.

(** X4. A lump sum set for month [lumpMonth] leaves the rows of the earlier
    months as they were: the schedules with and without it agree on their
    first [lumpMonth - 1] rows.  This holds in any arithmetic. *)
Theorem X4_lump_sum_leaves_earlier_rows {num : Type} {arith : Number num}
    (inputs : MortgageInputs num) (override : ScenarioOverride num)
    (lumpMonth : Z) (amount : num) :
  take (Z.to_nat (lumpMonth - 1))
    (generateAmortizationSchedule inputs
       (Some {| extraMonthlyPrincipal := extraMonthlyPrincipal override;
                lumpSumPayments := <[lumpMonth := amount]> (lumpSumPayments override) |}))
  = take (Z.to_nat (lumpMonth - 1)) (generateAmortizationSchedule inputs (Some override)).
Proof.
  rewrite !schedule_rows. apply rows_prefix. intros m Hm.
  unfold requestedExtra, requestedMonthly, requestedLumpSum.
  cbn [extraMonthlyPrincipal lumpSumPayments].
  by rewrite lookup_insert_ne by lia.
Qed.

Lemma F64_max_zero (x : float) :
  PrimFloat.is_nan (F64.max 0 x) = true \/ F64.max 0 x = 0%float \/
  PrimFloat.ltb 0 (F64.max 0 x) = true.
Proof.
  unfold F64.max.
  destruct (PrimFloat.is_nan 0 || PrimFloat.is_nan x); [by left|].
  destruct (PrimFloat.ltb 0 x) eqn:Hpos; [by right; right|].
  destruct (PrimFloat.ltb x 0); [by right; left|].
  right; left. reflexivity.
Qed.

(** X5. In binary64 arithmetic the [remainingBalance] a row stores is never
    negative and never the negative zero: it is +0, or above 0, or NaN,
    whatever the inputs, the override and [Math.pow] are. *)
Theorem X5_binary64_balance_not_negative (Math_pow : float -> float -> float)
    (inputs : MortgageInputs float) (overrides : option (ScenarioOverride float)) :
  Forall (fun row =>
    PrimFloat.is_nan (remainingBalance row) = true \/ remainingBalance row = 0%float \/
    PrimFloat.ltb 0 (remainingBalance row) = true)
    (@generateAmortizationSchedule float (F64_number Math_pow) inputs overrides).
Proof.
  apply Forall_lookup_2. intros i row Hi.
  destruct (@run_rows float (F64_number Math_pow) inputs overrides 1 (principal inputs) _
              (@rows_run float (F64_number Math_pow) _ _ _ _) i row Hi) as [b ->].
  destruct (@period_shape float (F64_number Math_pow) inputs overrides (1 + Z.of_nat i) b)
    as (_ & _ & _ & _ & _ & _ & -> & _).
  apply F64_max_zero.
Qed.

(** ** Amortization never runs backwards *)

Section NoNegativeAmortization.
Variable inputs : MortgageInputs Q.
Variable overrides : option (ScenarioOverride Q).
Hypothesis rate_nonneg_ : 0 <= annualRate inputs.
Hypothesis extra_nonneg : forall m : Z, 0 <= requestedExtra overrides m.
Local Open Scope Q_scope.

Abbreviation sched := (generateAmortizationSchedule inputs overrides).

(** The payment covers the interest on the whole principal. *)
Lemma payment_covers_interest :
  0 <= principal inputs -> (1 <= termMonths inputs)%Z ->
  principal inputs * (annualRate inputs / 100 / 12)
    <= calculateMonthlyPayment (principal inputs) (annualRate inputs) (termMonths inputs).
Proof.
  intros HP Hn.
  destruct (amortized_bounds (principal inputs) (annualRate inputs) (termMonths inputs)
              (Z.to_nat (termMonths inputs)) 0 HP rate_nonneg_ Hn eq_refl) as (_ & Hi & _).
  cbn [amortized] in Hi. lra.
Qed.

Lemma row_amortizes (i : nat) (row : PaymentRow Q) (before : Q) :
  sched !! i = Some row ->
  balanceAfter (principal inputs) sched i = Some before ->
  before <= principal inputs ->
  0 <= interestPaid row /\ interestPaid row <= basePayment row /\
  0 <= principalPaid row /\ remainingBalance row <= before.
Proof.
  intros Hi Hb Hle.
  destruct (schedule_lookup inputs overrides i row Hi) as (_ & _ & _ & _ & _ & Hn & _).
  destruct (row_facts inputs overrides i row Hi)
    as (before' & Hb' & Hpos & Hm & Hbase & Hint & Hpp & _ & _ & Hrb & _).
  rewrite Hb in Hb'. injection Hb' as <-.
  pose proof (rate_nonneg _ rate_nonneg_) as Hr.
  pose proof (payment_covers_interest ltac:(lra) ltac:(lia)) as Hcov.
  rewrite <- Hbase in Hcov.
  pose proof (extra_nonneg (month row)) as He.
  revert Hr Hcov Hint Hpp He.
  generalize (annualRate inputs / 100 / 12), (requestedExtra overrides (month row)).
  intros r e Hr Hcov Hint Hpp He.
  assert (0 <= before * r) by (apply Qmult_le_0_compat; lra).
  assert (0 <= (principal inputs - before) * r) by (apply Qmult_le_0_compat; lra).
  assert (0 <= principalPaid row).
  { rewrite Hpp. apply Q.min_glb; lra. }
  repeat split; lra.
Qed.

Lemma balance_le_principal (k : nat) (b : Q) :
  balanceAfter (principal inputs) sched k = Some b -> b <= principal inputs.
Proof.
  revert b. induction k as [|k IH]; intros b Hb.
  - injection Hb as <-. lra.
  - simpl in Hb. destruct (sched !! k) as [row|] eqn:Hrow; [|done]. injection Hb as <-.
    destruct (row_facts inputs overrides k row Hrow) as (before & Hbefore & _).
    specialize (IH before Hbefore).
    destruct (row_amortizes k row before Hrow Hbefore IH) as (_ & _ & _ & Hle). lra.
Qed.
End NoNegativeAmortization.

(** X6. For a non-negative rate and non-negative extra principal, no row
    amortizes negatively: the balance a row starts from is at most the
    principal, the interest of the row is not negative and is covered by the
    base payment, the principal paid is not negative, and the balance does
    not rise. *)
Theorem X6_balance_never_rises (inputs : MortgageInputs Q)
    (overrides : option (ScenarioOverride Q)) (i : nat) (row : PaymentRow Q) :
  0 <= annualRate inputs ->
  (forall m : Z, 0 <= requestedExtra overrides m) ->
  generateAmortizationSchedule inputs overrides !! i = Some row ->
  exists before : Q,
    balanceAfter (principal inputs) (generateAmortizationSchedule inputs overrides) i
      = Some before /\
    before <= principal inputs /\
    0 <= interestPaid row /\ interestPaid row <= basePayment row /\
    0 <= principalPaid row /\ remainingBalance row <= before.
Proof.
  intros HR He Hi.
  destruct (row_facts inputs overrides i row Hi) as (before & Hb & _).
  pose proof (balance_le_principal inputs overrides HR He i before Hb) as Hle.
  exists before. split; [done|]. split; [done|].
  by apply (row_amortizes inputs overrides HR He i).
Qed.

Lemma X6_balance_never_rises_witness :
  exists (row : PaymentRow Q) (before : Q),
    generateAmortizationSchedule sampleLoan (Some sampleOverride) !! 1%nat = Some row /\
    balanceAfter (principal sampleLoan)
      (generateAmortizationSchedule sampleLoan (Some sampleOverride)) 1 = Some before /\
    before <= principal sampleLoan /\
    0 <= interestPaid row /\ interestPaid row <= basePayment row /\
    0 <= principalPaid row /\ remainingBalance row <= before.
Proof.
  eexists.
  assert (generateAmortizationSchedule sampleLoan (Some sampleOverride) !! 1%nat = Some _) as Hrow
    by (vm_compute; reflexivity).
  assert (forall m : Z, 0 <= requestedExtra (Some sampleOverride) m) as Hextra.
  { intros m. unfold requestedExtra, requestedMonthly, requestedLumpSum, sampleOverride.
    cbn [extraMonthlyPrincipal lumpSumPayments add ofZ Q_number].
    destruct (decide (m = 2%Z)) as [->|Hne].
    - rewrite lookup_singleton_eq. discriminate.
    - rewrite lookup_singleton_ne by done. discriminate. }
  destruct (X6_balance_never_rises sampleLoan (Some sampleOverride) 1 _
              ltac:(discriminate) Hextra Hrow) as (before & H).
  exists before. split; [exact Hrow|exact H].
Defined.

Section Payments.
Variable inputs : MortgageInputs Q.
Variable overrides : option (ScenarioOverride Q).
Local Open Scope Q_scope.

Abbreviation sched_ := (generateAmortizationSchedule inputs overrides).

(** What the payment of a row is made of. *)
Lemma row_payment (i : nat) (row : PaymentRow Q) :
  sched_ !! i = Some row ->
  totalPayment row == principalPaid row + interestPaid row + extraMonthlyPayment inputs.
Proof.
  intros Hi.
  destruct (row_facts inputs overrides i row Hi)
    as (_ & _ & _ & _ & _ & _ & _ & Hex & Htot & _).
  rewrite Htot, Hex. ring.
Qed.

(** A row that is followed by another is not clamped. *)
Lemma row_unclamped (i : nat) (row : PaymentRow Q) :
  sched_ !! i = Some row -> (S i < length sched_)%nat ->
  extraPayment row == requestedExtra overrides (month row).
Proof.
  intros Hi Hlen.
  destruct (row_facts inputs overrides i row Hi)
    as (before & _ & _ & _ & _ & _ & Hpp & Hex & _ & Hrb & Hmid).
  specialize (Hmid Hlen). rewrite Hex.
  destruct (Q.min_spec
    (basePayment row - interestPaid row + requestedExtra overrides (month row)) before)
    as [[_ Hmin]|[_ Hmin]]; rewrite Hmin in Hpp; lra.
Qed.

Lemma sum_of_payments (s : list (PaymentRow Q)) (a : Q) :
  Forall (fun row => totalPayment row == principalPaid row + interestPaid row + a) s ->
  sumQ (map totalPayment s)
    == sumQ (map principalPaid s) + sumQ (map interestPaid s)
       + inject_Z (Z.of_nat (length s)) * a.
Proof.
  induction 1 as [|row s Hrow Hs IH].
  - simpl. ring.
  - cbn [map sumQ length]. rewrite Hrow, IH, Nat2Z.inj_succ, <- Z.add_1_r, inject_Z_plus.
    change (inject_Z 1) with 1. ring.
Qed.
End Payments.

(** X7. What [calculateSummary] reports as [totalPaid] is the principal
    repaid (the principal less the balance the schedule ends on), plus
    [totalInterestPaid], plus the fixed monthly add-on for each of the
    [monthsToPayoff] rows. *)
Theorem X7_total_paid_decomposition (inputs : MortgageInputs Q)
    (overrides : option (ScenarioOverride Q)) (baseline : option (list (PaymentRow Q))) :
  let s := generateAmortizationSchedule inputs overrides in
  exists final : Q,
    balanceAfter (principal inputs) s (length s) = Some final /\
    totalPaid (calculateSummary s baseline)
      == (principal inputs - final) + totalInterestPaid (calculateSummary s baseline)
         + inject_Z (monthsToPayoff (calculateSummary s baseline)) * extraMonthlyPayment inputs.
Proof.
  cbv zeta. destruct (schedule_principal_sum inputs overrides) as (final & Hf & Hsum).
  exists final. split; [done|].
  assert (forall s b, totalPaid (calculateSummary s b) == sumQ (map totalPayment s)) as ->
    by (intros s [b|]; apply reduce_sum_sumQ).
  assert (forall s b, totalInterestPaid (calculateSummary s b) == sumQ (map interestPaid s))
    as -> by (intros s [b|]; apply reduce_sum_sumQ).
  assert (forall s b, monthsToPayoff (calculateSummary s b) = Z.of_nat (length s)) as ->
    by (by intros s [b|]).
  rewrite <- Hsum. apply sum_of_payments.
  apply Forall_lookup_2. intros i row Hi. by apply (row_payment inputs overrides i).
Qed.

(** X8. A row whose base principal portion and requested extra reach the
    balance it starts from pays the loan off: it is the last row, it pays
    exactly that balance and leaves 0, its [extraPayment] is the balance
    less the base principal portion, which is at most the extra requested,
    and its [totalPayment] is the balance plus its interest plus the fixed
    add-on. *)
Theorem X8_payoff_row (inputs : MortgageInputs Q) (overrides : option (ScenarioOverride Q))
    (i : nat) (row : PaymentRow Q) (before : Q) :
  generateAmortizationSchedule inputs overrides !! i = Some row ->
  balanceAfter (principal inputs) (generateAmortizationSchedule inputs overrides) i
    = Some before ->
  before <= basePayment row - interestPaid row + requestedExtra overrides (month row) ->
  S i = length (generateAmortizationSchedule inputs overrides) /\
  principalPaid row == before /\
  remainingBalance row == 0 /\
  extraPayment row == before - (basePayment row - interestPaid row) /\
  extraPayment row <= requestedExtra overrides (month row) /\
  totalPayment row == before + interestPaid row + extraMonthlyPayment inputs.
Proof.
  intros Hi Hb Hreach.
  destruct (row_facts inputs overrides i row Hi)
    as (before' & Hb' & _ & _ & _ & _ & Hpp & Hex & Htot & Hrb & Hmid).
  rewrite Hb in Hb'. injection Hb' as <-.
  rewrite Q.min_r in Hpp by done.
  split.
  { pose proof (lookup_lt_Some _ _ _ Hi) as Hlt.
    destruct (decide (S i < length (generateAmortizationSchedule inputs overrides))%nat)
      as [Hmore|Hlast]; [|lia].
    specialize (Hmid Hmore). lra. }
  split; [done|]. split; [lra|]. split; [lra|]. split; [lra|]. rewrite Htot, Hex, Hpp. ring.
Qed.

Lemma X8_payoff_row_witness :
  exists (row : PaymentRow Q) (before : Q),
    generateAmortizationSchedule sampleLoan (Some sampleOverride) !! 2%nat = Some row /\
    balanceAfter (principal sampleLoan)
      (generateAmortizationSchedule sampleLoan (Some sampleOverride)) 2 = Some before /\
    before
      <= basePayment row - interestPaid row + requestedExtra (Some sampleOverride) (month row) /\
    3%nat = length (generateAmortizationSchedule sampleLoan (Some sampleOverride)) /\
    principalPaid row == before /\
    remainingBalance row == 0 /\
    extraPayment row == before - (basePayment row - interestPaid row) /\
    extraPayment row <= requestedExtra (Some sampleOverride) (month row) /\
    totalPayment row == before + interestPaid row + extraMonthlyPayment sampleLoan.
Proof.
  eexists. eexists.
  assert (generateAmortizationSchedule sampleLoan (Some sampleOverride) !! 2%nat = Some _) as Hrow
    by (vm_compute; reflexivity).
  assert (balanceAfter (principal sampleLoan)
            (generateAmortizationSchedule sampleLoan (Some sampleOverride)) 2 = Some _) as Hb
    by (vm_compute; reflexivity).
  split; [exact Hrow|]. split; [exact Hb|].
  assert (forall (x y : Q) (P : Prop), x <= y -> (x <= y -> P) -> x <= y /\ P) as Hcut by tauto.
  apply Hcut; [vm_compute; discriminate|].
  exact (X8_payoff_row sampleLoan (Some sampleOverride) 2 _ _ Hrow Hb).
Defined.

(** ** Durations *)

Lemma allNumeric_app (s t : string) :
  allNumeric (s +:+ t) = allNumeric s && allNumeric t.
Proof. induction s as [|c s IH]; simpl; [done|]. by rewrite IH, andb_assoc. Qed.

Lemma numeric_pretty_N_char (x : N) : numeric (pretty_N_char x) = true.
Proof. unfold pretty_N_char. by repeat case_match. Qed.

Lemma allNumeric_pretty_N_go (x : N) (s : string) :
  allNumeric s = true -> allNumeric (pretty_N_go x s) = true.
Proof.
  revert s. induction (N.lt_wf_0 x) as [x _ IH]. intros s Hs.
  destruct (decide (x = 0)%N) as [->|Hx]; [by rewrite pretty_N_go_0|].
  rewrite pretty_N_go_step by lia. apply IH.
  - apply N.div_lt; lia.
  - simpl. by rewrite numeric_pretty_N_char.
Qed.

Lemma allNumeric_pretty (z : Z) : allNumeric (pretty z) = true.
Proof.
  assert (forall p : positive, allNumeric (pretty p) = true) as Hpos.
  { intros p. unfold pretty, pretty_positive, pretty, pretty_N.
    case_decide; [done|]. by apply allNumeric_pretty_N_go. }
  destruct z as [|p|p]; [done|apply Hpos|].
  unfold pretty, pretty_Z. simpl. apply Hpos.
Qed.

(** A printed integer ends where the first other character stands. *)
Lemma numeric_prefix_inj (u v : string) (c d : ascii) (s t : string) :
  allNumeric u = true -> allNumeric v = true -> numeric c = false -> numeric d = false ->
  u +:+ String c s = v +:+ String d t -> u = v /\ c = d /\ s = t.
Proof.
  revert v. induction u as [|a u IH]; intros [|b v] Hu Hv Hc Hd Heq; simpl in *.
  - by injection Heq as -> ->.
  - injection Heq as -> _. apply andb_true_iff in Hv as [Hb _]. congruence.
  - injection Heq as -> _. apply andb_true_iff in Hu as [Ha _]. congruence.
  - injection Heq as -> Heq.
    apply andb_true_iff in Hu as [_ Hu]. apply andb_true_iff in Hv as [_ Hv].
    destruct (IH v Hu Hv Hc Hd Heq) as (-> & -> & ->). done.
Qed.

Lemma pretty_prefix_inj (x y : Z) (c d : ascii) (s t : string) :
  numeric c = false -> numeric d = false ->
  pretty x +:+ String c s = pretty y +:+ String d t -> x = y /\ c = d /\ s = t.
Proof.
  intros Hc Hd Heq.
  destruct (numeric_prefix_inj _ _ c d s t (allNumeric_pretty x) (allNumeric_pretty y) Hc Hd Heq)
    as (Hxy & -> & ->).
  by apply (inj pretty) in Hxy as ->.
Qed.

(** X9. [formatDuration] shows different month counts differently: two
    integers, negative ones included, have the same text only if they are
    equal. *)
Theorem X9_formatDuration_injective (months months' : Z) :
  formatDuration months = formatDuration months' <-> months = months'.
Proof.
  split; [|by intros ->]. unfold formatDuration.
  pose proof (Z.quot_rem months 12 ltac:(lia)) as Hqr.
  pose proof (Z.quot_rem months' 12 ltac:(lia)) as Hqr'.
  repeat case_match; simpl; intros Heq;
    apply pretty_prefix_inj in Heq as (Hn & Hch & Hs); try done;
    repeat match goal with
           | H : (_ =? _)%Z = true |- _ => apply Z.eqb_eq in H
           | H : (_ =? _)%Z = false |- _ => apply Z.eqb_neq in H
           | H : negb _ = true |- _ => apply negb_true_iff in H
           | H : negb _ = false |- _ => apply negb_false_iff in H
           end;
    try discriminate;
    try (injection Hs as Hs;
         apply (pretty_prefix_inj _ _ "m" "m" "" "") in Hs as (Hm & _ & _); [|done..]);
    Z.to_euclidean_division_equations; lia.
Qed.

(** X10. For a row count, [formatDuration] shows the years and months of the
    division by 12: below 12 the count with "month" or "months" ("month"
    for 1 only); for a multiple of 12 the quotient with "year" or "years"
    ("year" for 12 months only); otherwise the quotient and the remainder,
    as "Xy Ym". *)
Theorem X10_formatDuration_of_a_row_count (months : Z) :
  ((0 <= months < 12)%Z ->
   formatDuration months
   = pretty months +:+ " month" +:+ (if decide (months = 1%Z) then "" else "s")) /\
  ((12 <= months)%Z -> (12 | months)%Z ->
   formatDuration months
   = pretty (months / 12)%Z +:+ " year" +:+ (if decide (months = 12%Z) then "" else "s")) /\
  ((12 <= months)%Z -> ~ (12 | months)%Z ->
   formatDuration months
   = pretty (months / 12)%Z +:+ "y " +:+ pretty (months mod 12)%Z +:+ "m").
Proof.
  unfold formatDuration. split; [|split].
  - intros Hm. rewrite Z.div_small, Z.rem_small by lia. cbn [Z.eqb].
    destruct (Z.eqb_spec months 1), (decide (months = 1%Z)); done.
  - intros Hm Hdiv. apply Z.mod_divide in Hdiv; [|lia].
    rewrite Z.rem_mod_nonneg, Hdiv by lia.
    destruct (Z.eqb_spec (months / 12) 0) as [H0|_];
      [Z.to_euclidean_division_equations; lia|]. cbn [Z.eqb].
    destruct (Z.eqb_spec (months / 12) 1), (decide (months = 12%Z)); try done;
      Z.to_euclidean_division_equations; lia.
  - intros Hm Hdiv. rewrite Z.rem_mod_nonneg by lia.
    destruct (Z.eqb_spec (months / 12) 0) as [H0|_];
      [Z.to_euclidean_division_equations; lia|].
    destruct (Z.eqb_spec (months mod 12) 0) as [H0|_]; [|done].
    destruct Hdiv. apply Z.mod_divide; [lia|done].
Qed.

Lemma X10_formatDuration_of_a_row_count_witness :
  formatDuration 5 = "5 months" /\ formatDuration 12 = "1 year" /\
  formatDuration 30 = "2y 6m".
Proof.
  split; [|split].
  - apply (X10_formatDuration_of_a_row_count 5). lia.
  - apply (X10_formatDuration_of_a_row_count 12); [lia|]. by exists 1%Z.
  - apply (X10_formatDuration_of_a_row_count 30); [lia|]. intros [k Hk]. lia.
Defined.

(** X11. For a negative count that is not a multiple of 12, the two numbers
    [formatDuration] shows do not add up to the count: the quotient is
    rounded down and the remainder keeps the sign, so minus ([years] years
    and [months] months) is shown as [-(years + 1)] years and [-months]
    months; minus one month reads "-1y -1m". *)
Theorem X11_formatDuration_negative (years months : Z) :
  (0 <= years)%Z -> (0 < months < 12)%Z ->
  formatDuration (- (12 * years + months))
  = pretty (- (years + 1))%Z +:+ "y " +:+ pretty (- months)%Z +:+ "m".
Proof.
  intros Hy Hm. unfold formatDuration.
  assert ((- (12 * years + months)) / 12 = - (years + 1))%Z as ->
    by (Z.to_euclidean_division_equations; lia).
  assert (Z.rem (- (12 * years + months)) 12 = (- months)%Z) as ->
    by (Z.to_euclidean_division_equations; lia).
  destruct (Z.eqb_spec (- (years + 1)) 0); [lia|].
  destruct (Z.eqb_spec (- months) 0); [lia|done].
Qed.

Lemma X11_formatDuration_negative_witness :
  formatDuration (- (12 * 0 + 1)) = "-1y -1m".
Proof. apply (X11_formatDuration_negative 0 1); lia. Defined.

(** ** The lump sums of a scenario *)

Section LumpSumLists.
Context {num : Type} {arith : Number num}.
Implicit Types (entries : list (Z * num)) (k : Z).

Lemma newMap_snoc entries (entry : Z * num) :
  App.newMap (entries ++ [entry]) = <[entry.1 := entry.2]> (App.newMap entries).
Proof. unfold App.newMap. by rewrite foldl_snoc. Qed.

Lemma newMap_lookup entries k :
  App.newMap entries !! k = snd <$> list.last (entriesOf k entries).
Proof.
  induction entries as [|entry entries IH] using rev_ind; [done|].
  rewrite newMap_snoc. unfold entriesOf in *. rewrite List.filter_app. cbn [List.filter].
  destruct (Z.eqb_spec entry.1 k) as [<-|Hne].
  - by rewrite lookup_insert_eq, last_snoc.
  - by rewrite lookup_insert_ne, app_nil_r.
Qed.

Lemma newMap_elem_of entries k (x : num) :
  App.newMap entries !! k = Some x -> (k, x) ∈ entries.
Proof.
  rewrite newMap_lookup. intros Hlast.
  destruct (list.last (entriesOf k entries)) as [[k' x']|] eqn:Hl; [|done].
  injection Hlast as ->. apply last_Some_elem_of in Hl.
  unfold entriesOf in Hl. apply list_elem_of_In, List.filter_In in Hl as [Hin Hk].
  apply Z.eqb_eq in Hk. simpl in Hk. subst k'. by apply list_elem_of_In.
Qed.

Lemma newMap_withoutMonth (month : Z) entries :
  App.newMap (App.withoutMonth month entries) = delete month (App.newMap entries).
Proof.
  induction entries as [|entry entries IH] using rev_ind; [symmetry; apply delete_empty|].
  unfold App.withoutMonth in *. rewrite List.filter_app, newMap_snoc. cbn [List.filter].
  destruct (Z.eqb_spec entry.1 month) as [<-|Hne]; cbn [negb].
  - by rewrite app_nil_r, IH, delete_insert_eq.
  - by rewrite newMap_snoc, IH, delete_insert_ne.
Qed.

(** The sort is a stable ascending arrangement: a permutation, in ascending
    order of the months, in which the entries of one month keep their
    order. *)
Lemma insertByMonth_Permutation (entry : Z * num) entries :
  App.insertByMonth entry entries ≡ₚ entry :: entries.
Proof.
  induction entries as [|next rest IH]; [done|]. cbn [App.insertByMonth].
  destruct (entry.1 <=? next.1)%Z; [done|]. rewrite IH. apply Permutation_swap.
Qed.

Lemma sortByMonth_Permutation entries : App.sortByMonth entries ≡ₚ entries.
Proof.
  induction entries as [|entry entries IH]; [done|].
  cbn [App.sortByMonth foldr]. fold (App.sortByMonth entries).
  by rewrite insertByMonth_Permutation, IH.
Qed.

Lemma insertByMonth_sorted (entry : Z * num) entries :
  StronglySorted (fun a b => (a.1 <= b.1)%Z) entries ->
  StronglySorted (fun a b => (a.1 <= b.1)%Z) (App.insertByMonth entry entries).
Proof.
  induction 1 as [|next rest Hs IH Hall]; cbn [App.insertByMonth].
  - by repeat constructor.
  - destruct (Z.leb_spec entry.1 next.1) as [Hle|Hgt].
    + constructor; [by constructor|]. constructor; [done|].
      eapply List.Forall_impl; [|exact Hall]. intros x Hx. simpl in *. lia.
    + constructor; [done|].
      rewrite insertByMonth_Permutation. constructor; [lia|done].
Qed.

Lemma sortByMonth_sorted entries :
  StronglySorted (fun a b => (a.1 <= b.1)%Z) (App.sortByMonth entries).
Proof.
  induction entries as [|entry entries IH]; [constructor|].
  cbn [App.sortByMonth foldr]. by apply insertByMonth_sorted.
Qed.

Lemma entriesOf_insertByMonth k (entry : Z * num) entries :
  entriesOf k (App.insertByMonth entry entries) = entriesOf k (entry :: entries).
Proof.
  induction entries as [|next rest IH]; [done|]. cbn [App.insertByMonth].
  destruct (Z.leb_spec entry.1 next.1) as [Hle|Hgt]; [done|].
  unfold entriesOf in *. cbn [List.filter] in *. rewrite IH.
  destruct (Z.eqb_spec entry.1 k) as [He|He]; [|done].
  destruct (Z.eqb_spec next.1 k) as [Hn|Hn]; [lia|done].
Qed.

Lemma entriesOf_sortByMonth k entries :
  entriesOf k (App.sortByMonth entries) = entriesOf k entries.
Proof.
  induction entries as [|entry entries IH]; [done|].
  cbn [App.sortByMonth foldr]. fold (App.sortByMonth entries).
  rewrite entriesOf_insertByMonth. unfold entriesOf in *. cbn [List.filter]. by rewrite IH.
Qed.

Lemma newMap_sortByMonth entries : App.newMap (App.sortByMonth entries) = App.newMap entries.
Proof. apply map_eq. intros k. by rewrite !newMap_lookup, entriesOf_sortByMonth. Qed.

(** The list [handleSaveLumpSum] stores, and the [Map] built from it. *)
Lemma handleSaveLumpSum_stored (scenario scenario' : App.Scenario num)
    (parsedMonth : option Z) (parsedAmount : num) :
  App.handleSaveLumpSum scenario (Some (parsedMonth, parsedAmount)) = Some scenario' ->
  App.lumpSumPayments scenario'
  = App.sortByMonth
      (if gtb (App.amountOr0 parsedAmount) (ofZ 0)
       then App.withoutMonth (App.monthOr1 parsedMonth) (App.lumpSumPayments scenario)
              ++ [(App.monthOr1 parsedMonth, App.amountOr0 parsedAmount)]
       else App.withoutMonth (App.monthOr1 parsedMonth) (App.lumpSumPayments scenario)).
Proof. intros [= <-]. reflexivity. Qed.

Lemma handleSaveLumpSum_newMap (scenario scenario' : App.Scenario num)
    (parsedMonth : option Z) (parsedAmount : num) :
  App.handleSaveLumpSum scenario (Some (parsedMonth, parsedAmount)) = Some scenario' ->
  App.newMap (App.lumpSumPayments scenario')
  = if gtb (App.amountOr0 parsedAmount) (ofZ 0)
    then <[App.monthOr1 parsedMonth := App.amountOr0 parsedAmount]>
           (App.newMap (App.lumpSumPayments scenario))
    else delete (App.monthOr1 parsedMonth) (App.newMap (App.lumpSumPayments scenario)).
Proof.
  intros Hsave. rewrite (handleSaveLumpSum_stored _ _ _ _ Hsave), newMap_sortByMonth.
  destruct (gtb (App.amountOr0 parsedAmount) (ofZ 0)).
  - by rewrite newMap_snoc, newMap_withoutMonth, insert_delete_eq.
  - apply newMap_withoutMonth.
Qed.

Lemma ascendingMonths_NoDup entries : ascendingMonths entries -> base.NoDup (fst <$> entries).
Proof.
  induction 1 as [|entry rest Hs IH Hall]; [constructor|].
  cbn [fmap list_fmap]. apply list.NoDup_cons. split; [|done].
  intros Hin. apply list_elem_of_fmap in Hin as (other & Heq & Hin).
  rewrite list.Forall_forall in Hall. specialize (Hall other Hin). lia.
Qed.

Lemma sorted_NoDup_ascending entries :
  StronglySorted (fun a b => (a.1 <= b.1)%Z) entries -> base.NoDup (fst <$> entries) ->
  ascendingMonths entries.
Proof.
  induction 1 as [|entry rest Hs IH Hall]; intros Hnd; [constructor|].
  cbn [fmap list_fmap] in Hnd. apply list.NoDup_cons in Hnd as [Hnotin Hnd].
  constructor; [by apply IH|].
  rewrite list.Forall_forall in *. intros other Hin. specialize (Hall other Hin).
  destruct (decide (entry.1 = other.1)) as [Heq|Hne]; [|lia].
  destruct Hnotin. apply list_elem_of_fmap. by exists other.
Qed.

Lemma withoutMonth_elem_of (month : Z) entries (entry : Z * num) :
  entry ∈ App.withoutMonth month entries <-> entry ∈ entries /\ entry.1 <> month.
Proof.
  unfold App.withoutMonth. rewrite !list_elem_of_In, List.filter_In, negb_true_iff, Z.eqb_neq.
  done.
Qed.

Lemma withoutMonth_ascending (month : Z) entries :
  ascendingMonths entries -> ascendingMonths (App.withoutMonth month entries).
Proof.
  induction 1 as [|entry rest Hs IH Hall]; [constructor|].
  unfold App.withoutMonth in *. cbn [List.filter].
  destruct (negb (entry.1 =? month)%Z); [|done].
  constructor; [done|]. rewrite list.Forall_forall in *. intros other Hin.
  apply withoutMonth_elem_of in Hin as [Hin _]. by apply Hall.
Qed.

Lemma withoutMonth_positive (month : Z) entries :
  positiveAmounts entries -> positiveAmounts (App.withoutMonth month entries).
Proof.
  unfold positiveAmounts. rewrite !list.Forall_forall. intros Hall entry Hin.
  apply withoutMonth_elem_of in Hin as [Hin _]. by apply Hall.
Qed.

Lemma handleSaveLumpSum_wellFormed (scenario scenario' : App.Scenario num)
    (editingLumpSum : option (option Z * num)) :
  ascendingMonths (App.lumpSumPayments scenario) ->
  positiveAmounts (App.lumpSumPayments scenario) ->
  App.handleSaveLumpSum scenario editingLumpSum = Some scenario' ->
  ascendingMonths (App.lumpSumPayments scenario') /\
  positiveAmounts (App.lumpSumPayments scenario').
Proof.
  intros Hasc Hpos Hsave. destruct editingLumpSum as [[parsedMonth parsedAmount]|]; [|done].
  rewrite (handleSaveLumpSum_stored _ _ _ _ Hsave).
  set (month := App.monthOr1 parsedMonth). set (amount := App.amountOr0 parsedAmount).
  pose proof (withoutMonth_ascending month _ Hasc) as Hasc'.
  pose proof (withoutMonth_positive month _ Hpos) as Hpos'.
  set (rest := App.withoutMonth month (App.lumpSumPayments scenario)) in *.
  split.
  - apply sorted_NoDup_ascending; [apply sortByMonth_sorted|].
    rewrite sortByMonth_Permutation.
    destruct (gtb amount (ofZ 0)); [|by apply ascendingMonths_NoDup].
    rewrite fmap_app. apply list.NoDup_app. split; [by apply ascendingMonths_NoDup|].
    split; [|by apply NoDup_singleton].
    intros k Hin Hk. apply list_elem_of_singleton in Hk as ->.
    apply list_elem_of_fmap in Hin as (other & Heq & Hin).
    apply withoutMonth_elem_of in Hin as [_ Hne]. by simpl in Heq.
  - unfold positiveAmounts. rewrite sortByMonth_Permutation.
    destruct (gtb amount (ofZ 0)) eqn:Hgt; [|done].
    apply list.Forall_app. split; [done|]. by repeat constructor.
Qed.

Lemma handleRemoveLumpSum_wellFormed (scenario : App.Scenario num) (month : Z) :
  ascendingMonths (App.lumpSumPayments scenario) ->
  positiveAmounts (App.lumpSumPayments scenario) ->
  ascendingMonths (App.lumpSumPayments (App.handleRemoveLumpSum scenario month)) /\
  positiveAmounts (App.lumpSumPayments (App.handleRemoveLumpSum scenario month)).
Proof.
  intros Hasc Hpos. split; [by apply withoutMonth_ascending|by apply withoutMonth_positive].
Qed.

Lemma entriesOf_none entries k :
  (forall entry : Z * num, entry ∈ entries -> entry.1 <> k) -> entriesOf k entries = [].
Proof.
  induction entries as [|entry entries IH]; intros Hne; [done|].
  unfold entriesOf in *. cbn [List.filter].
  destruct (Z.eqb_spec entry.1 k) as [He|_].
  - by destruct (Hne entry ltac:(left)).
  - apply IH. intros other Hin. apply Hne. by right.
Qed.

Lemma ascendingMonths_newMap entries k (x : num) :
  ascendingMonths entries -> (k, x) ∈ entries -> App.newMap entries !! k = Some x.
Proof.
  intros Hasc Hin. rewrite newMap_lookup.
  induction Hasc as [|entry rest Hs IH Hall].
  - by apply elem_of_nil in Hin.
  - rewrite list.Forall_forall in Hall.
    apply elem_of_cons in Hin as [<-|Hin].
    + unfold entriesOf. cbn [List.filter]. rewrite Z.eqb_refl.
      fold (entriesOf k rest). rewrite entriesOf_none; [done|].
      intros other Hother. apply Hall in Hother. simpl in *. lia.
    + specialize (Hall _ Hin). simpl in Hall.
      unfold entriesOf in *. cbn [List.filter].
      destruct (Z.eqb_spec entry.1 k) as [He|He]; [lia|]. by apply IH.
Qed.

(** A list in ascending order of its months is determined by the [Map]
    built from it. *)
Lemma ascendingMonths_determined entries entries' :
  ascendingMonths entries -> ascendingMonths entries' ->
  App.newMap entries = App.newMap entries' -> entries = entries'.
Proof.
  intros Hasc. revert entries'.
  induction Hasc as [|entry rest Hs IH Hall]; intros entries' Hasc' Hmap.
  2: assert (ascendingMonths (entry :: rest)) as Hasc0 by (by constructor).
  - destruct entries' as [|[k x] rest']; [done|].
    pose proof (ascendingMonths_newMap _ k x Hasc' ltac:(left)) as Hk.
    by rewrite <- Hmap in Hk.
  - destruct entries' as [|entry' rest'].
    + destruct entry as [k x].
      pose proof (ascendingMonths_newMap ((k, x) :: rest) k x Hasc0 ltac:(left)) as Hk.
      by rewrite Hmap in Hk.
    + inversion Hasc' as [|? ? Hs' Hall']; subst.
      rewrite list.Forall_forall in Hall, Hall'.
      assert (forall e, e ∈ entry :: rest <-> e ∈ entry' :: rest') as Hsame.
      { intros [k x]. split; intros Hin.
        - apply (ascendingMonths_newMap _ k x Hasc0) in Hin.
          rewrite Hmap in Hin. by apply newMap_elem_of in Hin.
        - apply (ascendingMonths_newMap _ k x Hasc') in Hin.
          rewrite <- Hmap in Hin. by apply newMap_elem_of in Hin. }
      assert (entry = entry') as <-.
      { pose proof (proj1 (Hsame entry) ltac:(left)) as H1.
        pose proof (proj2 (Hsame entry') ltac:(left)) as H2.
        apply elem_of_cons in H1 as [?|H1]; [done|].
        apply elem_of_cons in H2 as [?|H2]; [done|].
        apply Hall' in H1. apply Hall in H2. lia. }
      f_equal. apply IH; [done|].
      apply map_eq. intros k.
      destruct (decide (k = entry.1)) as [->|Hne].
      * transitivity (@None num); [|symmetry].
        -- destruct (App.newMap rest !! entry.1) as [x|] eqn:Hx; [|done].
           apply newMap_elem_of, Hall in Hx. simpl in Hx. lia.
        -- destruct (App.newMap rest' !! entry.1) as [x|] eqn:Hx; [|done].
           apply newMap_elem_of, Hall' in Hx. simpl in Hx. lia.
      * apply option_eq. intros x. split; intros Hx.
        -- apply newMap_elem_of in Hx.
           pose proof (proj1 (Hsame (k, x)) ltac:(by right)) as Hin.
           apply elem_of_cons in Hin as [Heq|Hin]; [by subst entry|].
           by apply ascendingMonths_newMap.
        -- apply newMap_elem_of in Hx.
           pose proof (proj2 (Hsame (k, x)) ltac:(by right)) as Hin.
           apply elem_of_cons in Hin as [Heq|Hin]; [by subst entry|].
           by apply ascendingMonths_newMap.
Qed.

(** Two scenarios that [handleSaveLumpSum] can store are equal when they
    agree on the fields it keeps and on the [Map] of their lump sums. *)
Lemma scenario_determined (a b : App.Scenario num) :
  App.id a = App.id b -> App.name a = App.name b ->
  App.extraMonthlyPrincipal a = App.extraMonthlyPrincipal b ->
  ascendingMonths (App.lumpSumPayments a) -> ascendingMonths (App.lumpSumPayments b) ->
  App.newMap (App.lumpSumPayments a) = App.newMap (App.lumpSumPayments b) ->
  a = b.
Proof.
  destruct a, b. cbn. intros -> -> -> Ha Hb Hmap.
  by rewrite (ascendingMonths_determined _ _ Ha Hb Hmap).
Qed.

Lemma handleSaveLumpSum_Some (scenario : App.Scenario num) (edit : option Z * num) :
  exists scenario' : App.Scenario num,
    App.handleSaveLumpSum scenario (Some edit) = Some scenario' /\
    App.id scenario' = App.id scenario /\
    App.name scenario' = App.name scenario /\
    App.extraMonthlyPrincipal scenario' = App.extraMonthlyPrincipal scenario.
Proof. destruct edit as [parsedMonth parsedAmount]. by eexists. Qed.

Lemma requestedExtra_override (scenario : App.Scenario num) (m : Z) :
  requestedExtra (Some (App.override scenario)) m
  = add (App.extraMonthlyPrincipal scenario)
      (default (ofZ 0) (App.newMap (App.lumpSumPayments scenario) !! m)).
Proof. reflexivity. Qed.
End LumpSumLists.

(** X12. [new Map(entries)] maps a month to the amount of the last entry of
    the list for that month, and has no value for a month without entry. *)
Theorem X12_newMap_last_entry_wins {num : Type} (entries : list (Z * num)) (k : Z) :
  App.newMap entries !! k = snd <$> list.last (entriesOf k entries).
Proof. apply newMap_lookup. Qed.

(** X13. Saving a lump sum acts on the override's [Map] as one update: with
    the month [parseInt(...) || 1], which is never 0, and the amount
    [parseFloat(...) || 0], the [Map] built from the list that
    [handleSaveLumpSum] stores is the old one with the month set to the
    amount if the amount is [> 0], and with the month deleted otherwise;
    the other fields of the scenario stay. *)
Theorem X13_handleSaveLumpSum_sets_or_deletes {num : Type} {arith : Number num}
    (scenario : App.Scenario num) (parsedMonth : option Z) (parsedAmount : num) :
  let month := App.monthOr1 parsedMonth in
  let amount := App.amountOr0 parsedAmount in
  month <> 0%Z /\
  exists scenario' : App.Scenario num,
    App.handleSaveLumpSum scenario (Some (parsedMonth, parsedAmount)) = Some scenario' /\
    App.id scenario' = App.id scenario /\
    App.name scenario' = App.name scenario /\
    App.extraMonthlyPrincipal scenario' = App.extraMonthlyPrincipal scenario /\
    App.newMap (App.lumpSumPayments scenario')
    = if gtb amount (ofZ 0)
      then <[month := amount]> (App.newMap (App.lumpSumPayments scenario))
      else delete month (App.newMap (App.lumpSumPayments scenario)).
Proof.
  cbv zeta. split; [by destruct parsedMonth as [[| |]|]|].
  eexists. split; [reflexivity|]. split; [done|]. split; [done|]. split; [done|].
  by apply handleSaveLumpSum_newMap.
Qed.

(** X14. Removing the lump sum of a month deletes the month from the
    override's [Map] and leaves the other months and the other fields of the
    scenario as they were. *)
Theorem X14_handleRemoveLumpSum_deletes {num : Type} (scenario : App.Scenario num)
    (month : Z) :
  let scenario' := App.handleRemoveLumpSum scenario month in
  App.id scenario' = App.id scenario /\
  App.name scenario' = App.name scenario /\
  App.extraMonthlyPrincipal scenario' = App.extraMonthlyPrincipal scenario /\
  App.newMap (App.lumpSumPayments scenario')
  = delete month (App.newMap (App.lumpSumPayments scenario)).
Proof. cbv zeta. repeat split. apply newMap_withoutMonth. Qed.

(** X15. The two lump-sum handlers keep the stored list in order: if the
    list of a scenario is in strictly ascending order of its months, with
    amounts [> 0], then so is the list after [handleSaveLumpSum], whatever
    the editor holds, and after [handleRemoveLumpSum], whatever the
    month. *)
Theorem X15_lump_sum_list_invariant {num : Type} {arith : Number num}
    (scenario : App.Scenario num) :
  ascendingMonths (App.lumpSumPayments scenario) ->
  positiveAmounts (App.lumpSumPayments scenario) ->
  (forall (editingLumpSum : option (option Z * num)) (scenario' : App.Scenario num),
     App.handleSaveLumpSum scenario editingLumpSum = Some scenario' ->
     ascendingMonths (App.lumpSumPayments scenario') /\
     positiveAmounts (App.lumpSumPayments scenario')) /\
  (forall month : Z,
     ascendingMonths (App.lumpSumPayments (App.handleRemoveLumpSum scenario month)) /\
     positiveAmounts (App.lumpSumPayments (App.handleRemoveLumpSum scenario month))).
Proof.
  intros Hasc Hpos. split.
  - intros editingLumpSum scenario'. by apply handleSaveLumpSum_wellFormed.
  - intros month. by apply handleRemoveLumpSum_wellFormed.
Qed.

Lemma X15_lump_sum_list_invariant_witness :
  (forall (editingLumpSum : option (option Z * Q)) (scenario' : App.Scenario Q),
     App.handleSaveLumpSum sampleScenario editingLumpSum = Some scenario' ->
     ascendingMonths (App.lumpSumPayments scenario') /\
     positiveAmounts (App.lumpSumPayments scenario')) /\
  (forall month : Z,
     ascendingMonths (App.lumpSumPayments (App.handleRemoveLumpSum sampleScenario month)) /\
     positiveAmounts (App.lumpSumPayments (App.handleRemoveLumpSum sampleScenario month))).
Proof.
  apply (X15_lump_sum_list_invariant sampleScenario).
  - repeat constructor; simpl; lia.
  - repeat constructor.
Defined.

(** X16. On a list in order, saving lump sums composes as updates of a
    [Map] do: saving the same fields twice stores what saving them once
    stores; two saves for different months store the same scenario in
    either order; and removing the month that was just saved stores what
    removing it from the scenario before the save stores. *)
Theorem X16_lump_sum_saves_compose {num : Type} {arith : Number num}
    (scenario : App.Scenario num) (edit edit' : option Z * num) :
  ascendingMonths (App.lumpSumPayments scenario) ->
  positiveAmounts (App.lumpSumPayments scenario) ->
  let save := fun edit scenario => App.handleSaveLumpSum scenario (Some edit) in
  save edit scenario ≫= save edit = save edit scenario /\
  (App.monthOr1 edit.1 <> App.monthOr1 edit'.1 ->
   save edit scenario ≫= save edit' = save edit' scenario ≫= save edit) /\
  (fun saved => App.handleRemoveLumpSum saved (App.monthOr1 edit.1)) <$> save edit scenario
  = Some (App.handleRemoveLumpSum scenario (App.monthOr1 edit.1)).
Proof.
  intros Hasc Hpos. cbv zeta.
  destruct (handleSaveLumpSum_Some scenario edit) as (s1 & Hs1 & Hid1 & Hname1 & Hex1).
  destruct (handleSaveLumpSum_Some scenario edit') as (s2 & Hs2 & Hid2 & Hname2 & Hex2).
  destruct (handleSaveLumpSum_wellFormed _ _ _ Hasc Hpos Hs1) as [Hasc1 Hpos1].
  destruct (handleSaveLumpSum_wellFormed _ _ _ Hasc Hpos Hs2) as [Hasc2 Hpos2].
  destruct (handleSaveLumpSum_Some s1 edit) as (s11 & Hs11 & Hid11 & Hname11 & Hex11).
  destruct (handleSaveLumpSum_Some s1 edit') as (s12 & Hs12 & Hid12 & Hname12 & Hex12).
  destruct (handleSaveLumpSum_Some s2 edit) as (s21 & Hs21 & Hid21 & Hname21 & Hex21).
  destruct (handleSaveLumpSum_wellFormed _ _ _ Hasc1 Hpos1 Hs11) as [Hasc11 _].
  destruct (handleSaveLumpSum_wellFormed _ _ _ Hasc1 Hpos1 Hs12) as [Hasc12 _].
  destruct (handleSaveLumpSum_wellFormed _ _ _ Hasc2 Hpos2 Hs21) as [Hasc21 _].
  rewrite Hs1, Hs2. cbn [mbind option_bind]. rewrite Hs11, Hs12, Hs21.
  destruct edit as [m a], edit' as [m' a']. cbn [fst].
  pose proof (handleSaveLumpSum_newMap _ _ _ _ Hs1) as M1.
  pose proof (handleSaveLumpSum_newMap _ _ _ _ Hs2) as M2.
  pose proof (handleSaveLumpSum_newMap _ _ _ _ Hs11) as M11.
  pose proof (handleSaveLumpSum_newMap _ _ _ _ Hs12) as M12.
  pose proof (handleSaveLumpSum_newMap _ _ _ _ Hs21) as M21.
  split; [|split].
  - f_equal. apply scenario_determined; try congruence.
    rewrite M11, M1. destruct (gtb (App.amountOr0 a) (ofZ 0)).
    + apply insert_insert_eq.
    + apply delete_delete_eq.
  - intros Hne. f_equal. apply scenario_determined; try congruence.
    rewrite M12, M21, M1, M2.
    destruct (gtb (App.amountOr0 a) (ofZ 0)), (gtb (App.amountOr0 a') (ofZ 0)).
    + by apply insert_insert_ne.
    + by rewrite delete_insert_ne.
    + by rewrite delete_insert_ne.
    + apply delete_delete.
  - cbn [fmap option_fmap option_map]. f_equal.
    destruct (handleRemoveLumpSum_wellFormed s1 (App.monthOr1 m) Hasc1 Hpos1) as [Hr1 _].
    destruct (handleRemoveLumpSum_wellFormed scenario (App.monthOr1 m) Hasc Hpos) as [Hr _].
    apply scenario_determined; try done.
    cbn [App.handleRemoveLumpSum App.withLumpSums App.lumpSumPayments].
    rewrite !newMap_withoutMonth, M1.
    destruct (gtb (App.amountOr0 a) (ofZ 0)).
    + apply delete_insert_eq.
    + apply delete_delete_eq.
Qed.

Lemma X16_lump_sum_saves_compose_witness :
  let save := fun edit scenario => App.handleSaveLumpSum scenario (Some edit) in
  save (Some 3%Z, 75%Q) sampleScenario ≫= save (Some 3%Z, 75%Q)
  = save (Some 3%Z, 75%Q) sampleScenario /\
  (App.monthOr1 (Some 3%Z) <> App.monthOr1 (Some 7%Z) ->
   save (Some 3%Z, 75%Q) sampleScenario ≫= save (Some 7%Z, 20%Q)
   = save (Some 7%Z, 20%Q) sampleScenario ≫= save (Some 3%Z, 75%Q)) /\
  (fun saved => App.handleRemoveLumpSum saved (App.monthOr1 (Some 3%Z)))
    <$> save (Some 3%Z, 75%Q) sampleScenario
  = Some (App.handleRemoveLumpSum sampleScenario (App.monthOr1 (Some 3%Z))).
Proof.
  apply (X16_lump_sum_saves_compose sampleScenario (Some 3%Z, 75%Q) (Some 7%Z, 20%Q)).
  - repeat constructor; simpl; lia.
  - repeat constructor.
Defined.

(** ** Scenarios and the engine *)

(** X17. The base scenario of the page, with no extra principal and no lump
    sum, gives the schedule the engine computes without an override, in any
    arithmetic. *)
Theorem X17_base_scenario_is_no_override {num : Type} {arith : Number num}
    (mortgageInputs : MortgageInputs num) (id name : string) :
  generateAmortizationSchedule mortgageInputs
    (Some (App.override
       {| App.id := id; App.name := name; App.extraMonthlyPrincipal := ofZ 0;
          App.lumpSumPayments := [] |}))
  = generateAmortizationSchedule mortgageInputs None.
Proof. apply schedule_locality. intros m _. reflexivity. Qed.

Lemma gtb_zero_Q (x : Q) : gtb x (ofZ 0) = true <-> 0 < x.
Proof.
  cbn [gtb ofZ Q_number]. change (inject_Z 0) with 0. rewrite negb_true_iff. split.
  - intros Hle. apply Qnot_le_lt. intros H. apply Qle_bool_iff in H. congruence.
  - intros Hlt. apply not_true_is_false. intros H. apply Qle_bool_iff in H. lra.
Qed.

Lemma amountOr0_Q (x : Q) : 0 < x -> App.amountOr0 x = x.
Proof.
  intros Hx. unfold App.amountOr0. cbn [eqb ofZ Q_number]. change (inject_Z 0) with 0.
  replace (Qeq_bool x 0) with false.
  - replace (Qeq_bool x x) with true; [done|]. symmetry. by apply Qeq_bool_iff.
  - symmetry. apply not_true_is_false. intros H. apply Qeq_bool_iff in H. lra.
Qed.

Lemma requestedExtra_override_nonneg (scenario : App.Scenario Q) (m : Z) :
  0 <= App.extraMonthlyPrincipal scenario ->
  positiveAmounts (App.lumpSumPayments scenario) ->
  0 <= requestedExtra (Some (App.override scenario)) m.
Proof.
  intros He Hpos. rewrite requestedExtra_override. cbn [add ofZ Q_number].
  change (inject_Z 0) with 0.
  destruct (App.newMap (App.lumpSumPayments scenario) !! m) as [x|] eqn:Hx; simpl; [|lra].
  apply newMap_elem_of in Hx. unfold positiveAmounts in Hpos.
  rewrite list.Forall_forall in Hpos. apply Hpos, gtb_zero_Q in Hx. simpl in Hx. lra.
Qed.

(** X18. For a non-negative rate, the summary card of a scenario whose
    extra monthly principal is not negative and whose lump sums are positive
    shows no negative saving: against the schedule of a base scenario without
    extras, [interestSaved] and [monthsSaved] are at least 0. *)
Theorem X18_savings_not_negative (mortgageInputs : MortgageInputs Q)
    (base scenario : App.Scenario Q) :
  0 <= annualRate mortgageInputs ->
  App.extraMonthlyPrincipal base == 0 ->
  App.lumpSumPayments base = [] ->
  0 <= App.extraMonthlyPrincipal scenario ->
  positiveAmounts (App.lumpSumPayments scenario) ->
  let baseSchedule := generateAmortizationSchedule mortgageInputs (Some (App.override base)) in
  let schedule := generateAmortizationSchedule mortgageInputs (Some (App.override scenario)) in
  0 <= interestSaved (App.summary scenario schedule baseSchedule) /\
  (0 <= monthsSaved (App.summary scenario schedule baseSchedule))%Z.
Proof.
  intros HR Hb0 Hbl He Hpos. cbv zeta.
  assert (forall m : Z,
            requestedExtra (Some (App.override base)) m
            <= requestedExtra (Some (App.override scenario)) m) as Hextra.
  { intros m. pose proof (requestedExtra_override_nonneg scenario m He Hpos) as Hnn.
    rewrite (requestedExtra_override base), Hbl. cbn [add ofZ Q_number App.newMap foldl].
    rewrite lookup_empty. cbn [default from_option]. change (inject_Z 0) with 0.
    revert Hnn. generalize (requestedExtra (Some (App.override scenario)) m). intros x Hx.
    lra. }
  destruct (schedule_monotone mortgageInputs (Some (App.override scenario))
              (Some (App.override base)) HR Hextra) as [Hlen Hsum].
  unfold App.summary. destruct (negb (String.eqb (App.id scenario) "base")).
  - cbn [calculateSummary interestSaved monthsSaved sub Q_number].
    rewrite !reduce_sum_sumQ. split; [lra|lia].
  - split; [discriminate|done].
Qed.

Lemma X18_savings_not_negative_witness :
  0 <= interestSaved
         (App.summary sampleScenario
            (generateAmortizationSchedule sampleLoan (Some (App.override sampleScenario)))
            (generateAmortizationSchedule sampleLoan (Some (App.override sampleBase)))) /\
  (0 <= monthsSaved
          (App.summary sampleScenario
             (generateAmortizationSchedule sampleLoan (Some (App.override sampleScenario)))
             (generateAmortizationSchedule sampleLoan (Some (App.override sampleBase)))))%Z.
Proof.
  apply (X18_savings_not_negative sampleLoan sampleBase sampleScenario).
  - discriminate.
  - reflexivity.
  - reflexivity.
  - discriminate.
  - repeat constructor.
Defined.

(** X19. For a non-negative rate, saving a positive lump sum that is at
    least the amount recorded for that month so far never delays the payoff
    and never adds interest: the schedule of the updated scenario has no more
    rows and no more total interest than the schedule before. *)
Theorem X19_positive_lump_sum_never_hurts (mortgageInputs : MortgageInputs Q)
    (scenario scenario' : App.Scenario Q) (parsedMonth : option Z) (parsedAmount : Q) :
  0 <= annualRate mortgageInputs ->
  0 < parsedAmount ->
  (forall old : Q,
     App.newMap (App.lumpSumPayments scenario) !! App.monthOr1 parsedMonth = Some old ->
     old <= parsedAmount) ->
  App.handleSaveLumpSum scenario (Some (parsedMonth, parsedAmount)) = Some scenario' ->
  let before := generateAmortizationSchedule mortgageInputs (Some (App.override scenario)) in
  let after := generateAmortizationSchedule mortgageInputs (Some (App.override scenario')) in
  (monthsToPayoff (calculateSummary after None)
   <= monthsToPayoff (calculateSummary before None))%Z /\
  totalInterestPaid (calculateSummary after None)
    <= totalInterestPaid (calculateSummary before None).
Proof.
  intros HR Hamount Hold Hsave. cbv zeta.
  pose proof (handleSaveLumpSum_newMap _ _ _ _ Hsave) as Hmap.
  assert (App.extraMonthlyPrincipal scenario' = App.extraMonthlyPrincipal scenario) as Hextra
    by (by injection Hsave as <-).
  rewrite (amountOr0_Q _ Hamount) in Hmap.
  replace (gtb parsedAmount (ofZ 0)) with true in Hmap by (symmetry; by apply gtb_zero_Q).
  assert (forall m : Z,
            requestedExtra (Some (App.override scenario)) m
            <= requestedExtra (Some (App.override scenario')) m) as Hle.
  { intros m. rewrite !requestedExtra_override, Hmap, Hextra. cbn [add ofZ Q_number].
    destruct (decide (m = App.monthOr1 parsedMonth)) as [->|Hne].
    - rewrite lookup_insert_eq.
      destruct (App.newMap (App.lumpSumPayments scenario) !! App.monthOr1 parsedMonth)
        as [old|] eqn:Ho; simpl.
      + specialize (Hold old eq_refl). lra.
      + change (inject_Z 0) with 0. lra.
    - rewrite lookup_insert_ne by done. lra. }
  destruct (schedule_monotone mortgageInputs (Some (App.override scenario'))
              (Some (App.override scenario)) HR Hle) as [Hlen Hsum].
  cbn [calculateSummary monthsToPayoff totalInterestPaid].
  rewrite !reduce_sum_sumQ. split; [lia|done].
Qed.

Lemma X19_positive_lump_sum_never_hurts_witness :
  let scenario' := App.withLumpSums sampleScenario [(2%Z, 150); (5%Z, 200)] in
  let before :=
    generateAmortizationSchedule sampleLoan (Some (App.override sampleScenario)) in
  let after := generateAmortizationSchedule sampleLoan (Some (App.override scenario')) in
  (monthsToPayoff (calculateSummary after None)
   <= monthsToPayoff (calculateSummary before None))%Z /\
  totalInterestPaid (calculateSummary after None)
    <= totalInterestPaid (calculateSummary before None).
Proof.
  apply (X19_positive_lump_sum_never_hurts sampleLoan sampleScenario _ (Some 2%Z) 150).
  - discriminate.
  - reflexivity.
  - intros old Hold. vm_compute in Hold. injection Hold as <-. discriminate.
  - vm_compute. reflexivity.
Defined.

(** X20. The "Total Monthly" of a summary card, the base payment plus the
    scenario's extra monthly principal plus the fixed add-on, is the
    [totalPayment] of every row of the scenario's schedule that is not the
    last one and whose month has no lump sum. *)
Theorem X20_total_monthly_is_the_row_payment (mortgageInputs : MortgageInputs Q)
    (scenario : App.Scenario Q) (i : nat) (row : PaymentRow Q) :
  let schedule := generateAmortizationSchedule mortgageInputs (Some (App.override scenario)) in
  let monthlyPayment :=
    calculateMonthlyPayment (principal mortgageInputs) (annualRate mortgageInputs)
      (termMonths mortgageInputs) in
  schedule !! i = Some row ->
  (S i < length schedule)%nat ->
  App.newMap (App.lumpSumPayments scenario) !! month row = None ->
  totalPayment row
    == App.totalMonthly scenario monthlyPayment (extraMonthlyPayment mortgageInputs).
Proof.
  cbv zeta. intros Hi Hlen Hnone.
  pose proof (row_unclamped mortgageInputs _ i row Hi Hlen) as Hex.
  destruct (row_facts mortgageInputs _ i row Hi)
    as (_ & _ & _ & _ & Hbase & _ & _ & _ & Htot & _).
  rewrite requestedExtra_override, Hnone in Hex.
  cbn [add ofZ Q_number default from_option] in Hex.
  unfold App.totalMonthly. cbn [add Q_number]. rewrite Htot, Hex, Hbase.
  change (inject_Z 0) with 0. ring.
Qed.

Lemma X20_total_monthly_is_the_row_payment_witness :
  exists row : PaymentRow Q,
    generateAmortizationSchedule sampleLoan (Some (App.override sampleScenario)) !! 0%nat
      = Some row /\
    (1 < length (generateAmortizationSchedule sampleLoan
                   (Some (App.override sampleScenario))))%nat /\
    App.newMap (App.lumpSumPayments sampleScenario) !! month row = None /\
    totalPayment row
      == App.totalMonthly sampleScenario
           (calculateMonthlyPayment (principal sampleLoan) (annualRate sampleLoan)
              (termMonths sampleLoan))
           (extraMonthlyPayment sampleLoan).
Proof.
  eexists.
  assert (generateAmortizationSchedule sampleLoan (Some (App.override sampleScenario)) !! 0%nat
          = Some _) as Hrow by (vm_compute; reflexivity).
  assert (1 < length (generateAmortizationSchedule sampleLoan
                        (Some (App.override sampleScenario))))%nat as Hlen
    by (vm_compute; lia).
  split; [exact Hrow|]. split; [exact Hlen|].
  assert (forall (o : option Q) (P : Prop), o = None -> (o = None -> P) -> o = None /\ P)
    as Hcut by tauto.
  apply Hcut; [vm_compute; reflexivity|].
  exact (X20_total_monthly_is_the_row_payment sampleLoan sampleScenario 0 _ Hrow Hlen).
Defined.

(** ** The list of scenarios *)

Section Events.
Context {num : Type} {arith : Number num}.
Implicit Types scenarios : list (App.Scenario num).

Lemma onUpdate_id (scenario updated : App.Scenario num) :
  App.onUpdate scenario updated -> App.id updated = App.id scenario.
Proof.
  intros [text|parsed Hne|editingLumpSum updated' Hne Hsave|month Hne]; try done.
  destruct editingLumpSum as [[parsedMonth parsedAmount]|]; [|done].
  by injection Hsave as <-.
Qed.

(** The column of the base scenario can only rename it. *)
Lemma onUpdate_base (name : string) (updated : App.Scenario num) :
  App.onUpdate
    {| App.id := "base"; App.name := name; App.extraMonthlyPrincipal := ofZ 0;
       App.lumpSumPayments := [] |} updated ->
  exists name' : string,
    updated = {| App.id := "base"; App.name := name'; App.extraMonthlyPrincipal := ofZ 0;
                 App.lumpSumPayments := [] |}.
Proof.
  intros Hu. inversion Hu as [text|parsed Hne|editingLumpSum updated' Hne Hsave|month Hne];
    try done.
  by exists text.
Qed.

Lemma onUpdate_lumpSums (scenario updated : App.Scenario num) :
  App.onUpdate scenario updated ->
  ascendingMonths (App.lumpSumPayments scenario) /\
  positiveAmounts (App.lumpSumPayments scenario) ->
  ascendingMonths (App.lumpSumPayments updated) /\
  positiveAmounts (App.lumpSumPayments updated).
Proof.
  intros [text|parsed Hne|editingLumpSum updated' Hne Hsave|month Hne] [Hasc Hpos]; try done.
  - by apply (handleSaveLumpSum_wellFormed scenario updated' editingLumpSum).
  - by apply handleRemoveLumpSum_wellFormed.
Qed.

Lemma event_invariant scenarios scenarios' :
  App.event scenarios scenarios' ->
  baseFirst scenarios /\ lumpSumsInOrder scenarios ->
  baseFirst scenarios' /\ lumpSumsInOrder scenarios'.
Proof.
  intros Hev [[[name Hbase] Hrest] Hlumps].
  destruct Hev as [index scenario updated Hi Hu|index Hindex|now|].
  - unfold App.handleUpdateScenario. split; [split|].
    + destruct index as [|index].
      * rewrite Hbase in Hi. injection Hi as <-.
        destruct (onUpdate_base name updated Hu) as [name' ->].
        exists name'. apply list_lookup_insert_eq. by apply lookup_lt_Some in Hbase.
      * exists name. by rewrite list_lookup_insert_ne.
    + intros i other Hother.
      destruct (decide (index = S i)) as [->|Hne].
      * rewrite list_lookup_insert_eq in Hother by (by apply lookup_lt_Some in Hi).
        injection Hother as <-. rewrite (onUpdate_id _ _ Hu). by apply (Hrest i).
      * rewrite list_lookup_insert_ne in Hother by done. by apply (Hrest i).
    + apply Forall_insert; [done|]. apply (onUpdate_lumpSums scenario updated Hu).
      unfold lumpSumsInOrder in Hlumps. rewrite Forall_lookup in Hlumps. by apply (Hlumps index).
  - unfold App.handleRemoveScenario. split; [split|].
    + exists name. rewrite list_lookup_delete_lt by lia. done.
    + intros i other Hother.
      destruct (decide (S i < index)%nat) as [Hlt|Hge].
      * rewrite list_lookup_delete_lt in Hother by done. by apply (Hrest i).
      * rewrite list_lookup_delete_ge in Hother by lia. by apply (Hrest (S i)).
    + by apply Forall_delete.
  - unfold App.handleAddScenario. split; [split|].
    + exists name. by rewrite lookup_app_l by (by apply lookup_lt_Some in Hbase).
    + intros i other Hother. apply lookup_app_Some in Hother as [Hother|[_ Hother]].
      * by apply (Hrest i).
      * apply list_lookup_singleton_Some in Hother as [_ <-]. done.
    + apply list.Forall_app. split; [done|]. repeat constructor.
  - split; [split|].
    + by exists "Base".
    + intros i other Hother. done.
    + repeat constructor.
Qed.

Lemma reachable_invariant scenarios :
  rtc App.event App.DEFAULT_SCENARIOS scenarios ->
  baseFirst scenarios /\ lumpSumsInOrder scenarios.
Proof.
  intros Hreach.
  apply (rtc_ind_r (R:=App.event)
           (fun scenarios => baseFirst scenarios /\ lumpSumsInOrder scenarios)
           App.DEFAULT_SCENARIOS); [|clear scenarios Hreach|exact Hreach].
  - split; [split|].
    + by exists "Base".
    + intros i other Hother. done.
    + repeat constructor.
  - intros scenarios scenarios' _ Hev IH. by apply (event_invariant scenarios scenarios').
Qed.
End Events.

Lemma sampleScenarios_reachable : rtc App.event App.DEFAULT_SCENARIOS sampleScenarios.
Proof.
  eapply rtc_l; [apply (App.event_add _ 1700000000000)|].
  eapply rtc_l; [|apply rtc_refl].
  assert (sampleScenarios
          = App.handleUpdateScenario
              (App.handleAddScenario App.DEFAULT_SCENARIOS 1700000000000) 1
              {| App.id := "scenario-1700000000000"; App.name := "Scenario 1";
                 App.extraMonthlyPrincipal := 200;
                 App.lumpSumPayments := [(12%Z, 10000)] |}) as ->
    by (vm_compute; reflexivity).
  apply (App.event_update _ 1
           {| App.id := "scenario-1700000000000"; App.name := "Scenario 1";
              App.extraMonthlyPrincipal := 200; App.lumpSumPayments := [] |}
           {| App.id := "scenario-1700000000000"; App.name := "Scenario 1";
              App.extraMonthlyPrincipal := 200;
              App.lumpSumPayments := [(12%Z, 10000)] |}); [reflexivity|].
  by apply (App.onUpdate_saveLumpSum _ (Some (Some 12%Z, 10000))).
Qed.

(** X21. Whatever the events of the page, from the default list of scenarios
    on: the list starts with the base scenario, which has no extra principal
    and no lump sum, and no other scenario has its id; the lump-sum list of
    every scenario is in strictly ascending order of its months, with
    amounts [> 0]; and the first schedule, which the page uses as
    [baseSchedule], is the schedule the engine computes without an
    override. *)
Theorem X21_reachable_scenario_lists {num : Type} {arith : Number num}
    (scenarios : list (App.Scenario num)) (mortgageInputs : MortgageInputs num) :
  rtc App.event App.DEFAULT_SCENARIOS scenarios ->
  baseFirst scenarios /\
  lumpSumsInOrder scenarios /\
  App.schedules mortgageInputs scenarios !! 0%nat
  = Some (generateAmortizationSchedule mortgageInputs None).
Proof.
  intros Hreach. destruct (reachable_invariant scenarios Hreach) as [Hbase Hlumps].
  split; [done|]. split; [done|].
  destruct Hbase as [[name Hbase] _]. unfold App.schedules.
  rewrite list_lookup_fmap, Hbase. cbn [fmap option_fmap option_map].
  apply (f_equal Some), schedule_locality. intros m _. reflexivity.
Qed.

Lemma X21_reachable_scenario_lists_witness :
  baseFirst sampleScenarios /\
  lumpSumsInOrder sampleScenarios /\
  App.schedules sampleLoan sampleScenarios !! 0%nat
  = Some (generateAmortizationSchedule sampleLoan None).
Proof.
  exact (X21_reachable_scenario_lists sampleScenarios sampleLoan sampleScenarios_reachable).
Defined.
